(** * Analytic SDF core of [velocity-learning.ipynb]

    A shallow embedding of the notebook's SDF math core:
    [get_sphere_sdf], [get_star_sdf], [make_annular] and [get_normal_field],
    and of what surrounds it: the layers of [FullyConnected], [create_grid]
    and the data that [plot_sdf] prepares for its contour plot.

    Conventions of the embedding.
    - A tensor element is a real number: finite values, exact arithmetic.
      Rounding and overflow of the float32 backend are not modelled.  A
      division of tensor elements is the one operation of this code that
      leaves the finite range on finite operands; its result is an [fval],
      which keeps the IEEE outcomes (infinity, NaN) apart.
    - A tensor of shape [(..., n)] is the list of its rows (points); a tensor
      of shape [(...)] is the list of its scalars, one per point.  A single
      point is a batch of one row.
    - A call that raises a Python exception returns [Raise]. *)

From Stdlib Require Import Reals Lra Lia List.
Import ListNotations.
Open Scope R_scope.

(** ** Outcomes of a call *)

Inductive py_exn : Type :=
| ZeroDivisionError   (* Python float division by zero *)
| IndexError          (* index out of range of the last dimension *)
| RuntimeError.       (* autograd: output not connected to the input *)

(** [NonFinite]: an intermediate value of the evaluation is an IEEE infinity
    or NaN; the evaluation goes on in torch, this embedding does not follow
    it. *)
Inductive outcome (A : Type) : Type :=
| Ok (a : A)
| Raise (e : py_exn)
| NonFinite.
Arguments Ok {A} a.
Arguments Raise {A} e.
Arguments NonFinite {A}.

Definition bind {A B : Type} (c : outcome A) (k : A -> outcome B) : outcome B :=
  match c with
  | Ok a => k a
  | Raise e => Raise e
  | NonFinite => NonFinite
  end.

Notation "x <- c ;; k" := (bind c (fun x => k))
  (at level 61, c at next level, right associativity).

Fixpoint mapM {A B : Type} (f : A -> outcome B) (l : list A) : outcome (list B) :=
  match l with
  | [] => Ok []
  | a :: l' => b <- f a ;; bs <- mapM f l' ;; Ok (b :: bs)
  end.

(** ** Scalars and IEEE division *)

Inductive fval : Type :=
| FFinite (v : R)
| FInf (negative : bool)
| FNaN.

(** [a / b] on floats, the divisor being a non-negative zero when it is zero:
    [0/0] is NaN, [a/0] is an infinity with the sign of [a]. *)
Definition tdiv (a b : R) : fval :=
  if Req_dec_T b 0 then
    if Req_dec_T a 0 then FNaN
    else FInf (if Rlt_dec a 0 then true else false)
  else FFinite (a / b).

(** [torch.sign] *)
Definition sign (v : R) : R :=
  match total_order_T v 0 with
  | inleft (left _) => -1
  | inleft (right _) => 0
  | inright _ => 1
  end.

(** [torch.clamp(v, lo, hi)] *)
Definition clamp (v lo hi : R) : R := Rmin (Rmax v lo) hi.

(** [torch.remainder(a, b)], the [%] of tensors: the result has the sign of
    the divisor. *)
Definition remainder (a b : R) : R := a - b * IZR (Int_part (a / b)).

(** [torch.atan2(y, x)] on finite operands (zeros are unsigned here). *)
Definition atan2 (y x : R) : R :=
  match total_order_T x 0 with
  | inright _ => atan (y / x)                         (* x > 0 *)
  | inleft (left _) =>                                (* x < 0 *)
      if Rlt_dec y 0 then atan (y / x) - PI else atan (y / x) + PI
  | inleft (right _) =>                               (* x = 0 *)
      match total_order_T y 0 with
      | inright _ => PI / 2
      | inleft (left _) => - (PI / 2)
      | inleft (right _) => 0
      end
  end.

(** ** Tensors *)

Abbreviation row := (list R) (only parsing).            (* one point: the last dimension *)
Abbreviation points := (list (list R)) (only parsing).  (* shape (..., n) *)
Abbreviation scalars := (list R) (only parsing).        (* shape (...) *)

Definition sum (l : list R) : R := fold_right Rplus 0 l.

(** [torch.norm(x, dim=-1)] of one row *)
Definition norm (p : row) : R := sqrt (sum (map (fun v => v ^ 2) p)).

(** The squared norm of one row. *)
Definition sumsq (p : row) : R := sum (map (fun v => v ^ 2) p).

Definition dot (p q : row) : R := sum (map (fun ab => fst ab * snd ab) (combine p q)).

(** Elementwise product of two tensors of one shape. *)
Definition mul1 (a b : scalars) : scalars :=
  map (fun ab => fst ab * snd ab) (combine a b).
Definition mul2 (a b : points) : points :=
  map (fun ab => mul1 (fst ab) (snd ab)) (combine a b).

(** ** The tensor operations the SDF closures use

    The closures are duck-typed: they run on plain tensors and on tensors
    that record the autograd graph alike.  [T2] is the type of a tensor of
    shape [(..., n)], [T1] of a tensor of shape [(...)]. *)

Class TorchOps (T2 T1 : Type) : Type := {
  t_pow : T2 -> nat -> T2;            (* x ** k *)
  t_sum_last : T2 -> T1;              (* torch.sum(x, dim=-1) *)
  t_sub_scalar : T1 -> R -> T1;       (* v - c *)
  t_abs : T1 -> T1                    (* torch.abs(v) *)
}.

(** Plain tensors: no graph is recorded. *)
#[export] Instance plain_ops : TorchOps points scalars := {
  t_pow x k := map (map (fun v => v ^ k)) x;
  t_sum_last x := map sum x;
  t_sub_scalar v c := map (fun a => a - c) v;
  t_abs v := map Rabs v
}.

(** Tensors attached to the graph of one leaf [x] of shape [(..., n)]:
    [grad_fn] is [None] on a tensor that does not depend on the leaf, and
    otherwise maps a cotangent of the tensor's shape to the gradient it
    contributes at the leaf (reverse mode). *)
Record tracked (A : Type) : Type := mk_tracked {
  data : A;
  grad_fn : option (A -> points)
}.
Arguments mk_tracked {A} data grad_fn.
Arguments data {A} t.
Arguments grad_fn {A} t.

Definition leaf (x : points) : tracked points := mk_tracked x (Some (fun c => c)).
Definition detached {A : Type} (a : A) : tracked A := mk_tracked a None.

Definition backward {A : Type} (t : tracked A) (local : A -> A) : option (A -> points) :=
  match grad_fn t with
  | Some bw => Some (fun c => bw (local c))
  | None => None
  end.

(** [torch.sum(., dim=-1)] backward: the cotangent of a point's sum goes to
    each coordinate of the point. *)
Definition expand_last (x : points) (c : scalars) : points :=
  map (fun pc => map (fun _ => snd pc) (fst pc)) (combine x c).

#[export] Instance tracked_ops : TorchOps (tracked points) (tracked scalars) := {
  t_pow x k :=
    mk_tracked (t_pow (data x) k)
      (backward x (fun c => mul2 c (map (map (fun v => INR k * v ^ (pred k))) (data x))));
  t_sum_last x :=
    mk_tracked (t_sum_last (data x))
      (match grad_fn x with
       | Some bw => Some (fun c => bw (expand_last (data x) c))
       | None => None
       end);
  t_sub_scalar v c :=
    mk_tracked (t_sub_scalar (data v) c) (backward v (fun c' => c'));
  t_abs v :=
    mk_tracked (t_abs (data v)) (backward v (fun c => mul1 c (map sign (data v))))
}.

(** ** The SDF closures *)

Section Closures.
Context {T2 T1 : Type} `{TorchOps T2 T1}.

(** [get_sphere_sdf(r)]: [torch.sum(x ** 2, dim=-1) - r ** 2] *)
Definition get_sphere_sdf (r : R) : T2 -> outcome T1 :=
  fun x => Ok (t_sub_scalar (t_sum_last (t_pow x 2)) (r ^ 2)).

(** [make_annular(sdf_func, r)]: [torch.abs(sdf_func(pos)) - r] *)
Definition make_annular (sdf_func : T2 -> outcome T1) (r : R) : T2 -> outcome T1 :=
  fun pos =>
    sdf_values <- sdf_func pos ;;
    Ok (t_sub_scalar (t_abs sdf_values) r).

End Closures.

(** Python's [a / b] on numbers. *)
Definition py_div (a b : R) : outcome R :=
  if Req_dec_T b 0 then Raise ZeroDivisionError else Ok (a / b).

(** [p[..., i]] on one row. *)
Definition index (p : row) (i : nat) : outcome R :=
  match nth_error p i with
  | Some v => Ok v
  | None => Raise IndexError
  end.

Definition finite (v : fval) : outcome R :=
  match v with
  | FFinite a => Ok a
  | _ => NonFinite
  end.

(** [get_star_sdf(r, n, m)], on plain tensors.  [an] and [en] are computed by
    Python before any tensor is touched; the rest is elementwise over the
    points, a point being folded to the pair [q] of shape [(2,)]. *)
Definition star_sdf_row (r an en : R) (p : row) : outcome R :=
  let acs := (cos an, sin an) in
  let ecs := (cos en, sin en) in
  x1 <- index p 1 ;;
  x0 <- index p 0 ;;
  let bn := remainder (atan2 x1 x0) (2 * an) - an in
  let q := (norm p * cos bn, norm p * Rabs (sin bn)) in
  let q := (fst q - r * fst acs, snd q - r * snd acs) in
  let dot_product := fst q * fst ecs + snd q * snd ecs in
  hi <- finite (tdiv (r * snd acs) (snd ecs)) ;;
  let q := (fst q + fst ecs * clamp (- dot_product) 0 hi,
            snd q + snd ecs * clamp (- dot_product) 0 hi) in
  Ok (norm [fst q; snd q] * sign (fst q)).

Definition get_star_sdf (r n m : R) : points -> outcome scalars :=
  fun x =>
    an <- py_div PI n ;;
    en <- py_div PI m ;;
    mapM (star_sdf_row r an en) x.

(** ** The normal field extractor *)

(** The caller's tensor object: [x.requires_grad_(True)] writes its flag in
    place. *)
Record tensor_obj : Type := mk_tensor {
  t_data : points;
  requires_grad : bool;
  t_grad : option points        (* the [.grad] attribute *)
}.

Definition requires_grad_ (x : tensor_obj) (flag : bool) : tensor_obj :=
  mk_tensor (t_data x) flag (t_grad x).

Definition ones_like (v : scalars) : scalars := map (fun _ => 1) v.

(** [torch.autograd.grad(outputs, inputs=x, grad_outputs)[0]] *)
Definition autograd_grad (outputs : tracked scalars) (grad_outputs : scalars)
  : outcome points :=
  match grad_fn outputs with
  | Some bw => Ok (bw grad_outputs)
  | None => Raise RuntimeError
  end.

(** [torch.sum] over all the elements. *)
Definition sum_all (x : points) : R := sum (map sum x).

(** [get_normal_field(f)]: the call returns the caller's tensor as the call
    leaves it, and the normal or the exception. *)
Definition get_normal_field (f : tracked points -> outcome (tracked scalars))
  : tensor_obj -> tensor_obj * outcome (list (list fval)) :=
  fun x =>
    let x := requires_grad_ x true in
    (x,
     f_value <- f (leaf (t_data x)) ;;
     grad <- autograd_grad f_value (ones_like (data f_value)) ;;
     Ok (map (map (fun g => tdiv g (sqrt (sum_all (t_pow grad 2))))) grad)).

(** ** The network modules *)

(** What [FullyConnected.__init__] appends to [layers]: [nn.Linear(size_in,
    size_out)] or an instance of the activation class. *)
Inductive layer_spec : Type :=
| LinearSpec (size_in size_out : nat)
| ActSpec.

(** [l[-k]] for [k >= 1]. *)
Definition neg_index {A : Type} (l : list A) (k : nat) : outcome A :=
  if (length l <? k)%nat then Raise IndexError
  else match nth_error l (length l - k) with
       | Some a => Ok a
       | None => Raise IndexError
       end.

(** [FullyConnected.__init__]: the loop over
    [zip(fc_sizes[:-1], fc_sizes[1:-1])], then the last [nn.Linear]. *)
Definition FullyConnected_init (fc_sizes : list nat) : outcome (list layer_spec) :=
  let layers :=
    flat_map (fun io => [LinearSpec (fst io) (snd io); ActSpec])
      (combine (removelast fc_sizes) (tl (removelast fc_sizes))) in
  size_in <- neg_index fc_sizes 2 ;;
  size_out <- neg_index fc_sizes 1 ;;
  Ok (layers ++ [LinearSpec size_in size_out]).

(** The chain that the sizes describe, by recursion on the list: a linear
    layer per pair of neighbouring sizes, an activation after each but the
    last.  [FullyConnected_init] is compared with it below. *)
Fixpoint consecutive_layers (sizes : list nat) : list layer_spec :=
  match sizes with
  | a :: ((b :: later) as rest) =>
      match later with
      | [] => [LinearSpec a b]
      | _ => LinearSpec a b :: ActSpec :: consecutive_layers rest
      end
  | _ => []
  end.

(** A module with its parameters: [nn.Linear] holds a weight of shape
    [(out_features, in_features)] and a bias of shape [(out_features)]; an
    activation acts elementwise. *)
Inductive module : Type :=
| Linear (in_features out_features : nat) (weight : list (list R)) (bias : list R)
| Activation (g : R -> R).

(** [SineActivation()]: [forward] is [torch.sin]. *)
Definition SineActivation : module := Activation sin.

(** A module built from a layer of [__init__], whatever the values of its
    parameters. *)
Definition instantiates (sp : layer_spec) (md : module) : Prop :=
  match sp, md with
  | LinearSpec size_in size_out, Linear in_f out_f w b =>
      in_f = size_in /\ out_f = size_out /\
      length w = size_out /\ Forall (fun wr => length wr = size_in) w /\
      length b = size_out
  | ActSpec, Activation _ => True
  | _, _ => False
  end.

(** [nn.Linear.forward] on one row: [x W^T + b], refused when the row does
    not have [in_features] entries. *)
Definition linear_forward (in_features : nat) (weight : list (list R))
    (bias : list R) (x : row) : outcome row :=
  if (length x =? in_features)%nat
  then Ok (map (fun wb => dot x (fst wb) + snd wb) (combine weight bias))
  else Raise RuntimeError.

Definition module_forward (md : module) (x : points) : outcome points :=
  match md with
  | Linear in_f _ w b => mapM (linear_forward in_f w b) x
  | Activation g => Ok (map (map g) x)
  end.

(** [FullyConnected.forward]: [nn.Sequential] runs the modules in order. *)
Fixpoint forward (model : list module) (x : points) : outcome points :=
  match model with
  | [] => Ok x
  | md :: rest => y <- module_forward md x ;; forward rest y
  end.

(** ** The sampling grid and the plots *)

(** [torch.linspace(start, end, steps)] *)
Definition linspace (start stop : R) (steps : nat) : list R :=
  match steps with
  | 1%nat => [start]
  | _ => map (fun i => start + INR i * ((stop - start) / (INR steps - 1)))
           (seq 0 steps)
  end.

(** [torch.meshgrid(px, py, indexing='xy')]: both results have one row per
    entry of [py] and one column per entry of [px]. *)
Definition meshgrid_xy (px py : list R) : list (list R) * list (list R) :=
  (map (fun _ => px) py, map (fun b => map (fun _ => b) px) py).

(** [create_grid(res)] *)
Definition create_grid (res : nat) : points * list (list R) * list (list R) :=
  let p := linspace (-1) 1 res in
  let x := fst (meshgrid_xy p p) in
  let y := snd (meshgrid_xy p p) in
  (map (fun ab => [fst ab; snd ab]) (combine (concat x) (concat y)), x, y).

(** [v.view(nrows, ncols)] *)
Fixpoint rows_of (ncols nrows : nat) (v : list R) : list (list R) :=
  match nrows with
  | O => []
  | S k => firstn ncols v :: rows_of ncols k (skipn ncols v)
  end.

Definition view (v : scalars) (nrows ncols : nat) : outcome (list (list R)) :=
  if (length v =? nrows * ncols)%nat then Ok (rows_of ncols nrows v)
  else Raise RuntimeError.

(** [z.min()] and [z.max()]: an error on a tensor without elements. *)
Definition tensor_min (z : list (list R)) : outcome R :=
  match concat z with
  | [] => Raise RuntimeError
  | v :: vs => Ok (fold_left Rmin vs v)
  end.

Definition tensor_max (z : list (list R)) : outcome R :=
  match concat z with
  | [] => Raise RuntimeError
  | v :: vs => Ok (fold_left Rmax vs v)
  end.

(** The arguments that reach [ax.contourf]. *)
Record contour_call : Type := mk_contour {
  c_x : list (list R);
  c_y : list (list R);
  c_z : list (list R);
  c_levels : list R
}.

(** What [plot_sdf] prepares for the plot: the field on the grid, reshaped,
    and levels symmetric about zero. *)
Definition contour_of (x y : list (list R)) (values : scalars) (res lines : nat)
  : outcome contour_call :=
  z <- view values res res ;;
  lo <- tensor_min z ;;
  hi <- tensor_max z ;;
  let max_abs_value := Rmax (Rabs lo) (Rabs hi) in
  Ok (mk_contour x y z (linspace (- max_abs_value) max_abs_value lines)).

(** [plot_sdf(net, res, contour_lines)], up to the call of [ax.contourf]. *)
Definition plot_sdf (net : points -> outcome scalars) (res contour_lines : nat)
  : outcome contour_call :=
  let '(grid, x, y) := create_grid res in
  values <- net grid ;;
  contour_of x y values res contour_lines.

(** * Properties *)

(** ** Sums of squares and the norm *)

Lemma sumsq_nonneg (p : row) : 0 <= sumsq p.
Proof.
  unfold sumsq. induction p as [|v p IH]; simpl.
  - lra.
  - simpl in IH. nra.
Qed.

Lemma norm_sq (p : row) : norm p ^ 2 = sumsq p.
Proof.
  unfold norm. fold (sumsq p).
  rewrite <- (sqrt_sqrt (sumsq p)) at 2 by apply sumsq_nonneg.
  ring.
Qed.

Lemma norm_nonneg (p : row) : 0 <= norm p.
Proof. unfold norm. apply sqrt_pos. Qed.

(** ** The sphere SDF on plain tensors *)

Lemma sphere_sdf_plain (r : R) (x : points) :
  get_sphere_sdf r x = Ok (map (fun p => sumsq p - r ^ 2) x).
Proof.
  unfold get_sphere_sdf. cbn [t_sub_scalar t_sum_last t_pow plain_ops].
  rewrite !map_map. reflexivity.
Qed.

(** C1. The sphere SDF of radius [r] maps every point of a batch to its
    squared norm minus [r^2].  Hence a point at distance [d] from the origin
    yields [d^2 - r^2], which is [0] when [d = r], negative when [d < r] and,
    for a radius [r >= 0], positive when [d > r]. *)
Theorem sphere_sdf_squared_form :
  (forall (r : R) (x : points),
      get_sphere_sdf r x = Ok (map (fun p => norm p ^ 2 - r ^ 2) x)) /\
  (forall (r d : R) (p : row),
      norm p = d ->
      get_sphere_sdf r [p] = Ok [d ^ 2 - r ^ 2] /\
      (d = r -> get_sphere_sdf r [p] = Ok [0]) /\
      (d < r -> d ^ 2 - r ^ 2 < 0) /\
      (0 <= r -> d > r -> d ^ 2 - r ^ 2 > 0)).
Proof.
  split.
  - intros r x. rewrite sphere_sdf_plain. f_equal.
    apply map_ext. intros p. now rewrite norm_sq.
  - intros r d p Hd.
    assert (Hval : get_sphere_sdf r [p] = Ok [d ^ 2 - r ^ 2]).
    { rewrite sphere_sdf_plain. cbn [map]. now rewrite <- norm_sq, Hd. }
    pose proof (norm_nonneg p) as Hn. rewrite Hd in Hn.
    repeat split.
    + exact Hval.
    + intros ->. rewrite Hval. do 2 f_equal. ring.
    + intros Hlt. nra.
    + intros Hr Hgt. nra.
Qed.

Lemma norm_3_4 : norm [3; 4] = 5.
Proof.
  unfold norm. simpl.
  replace (3 * (3 * 1) + (4 * (4 * 1) + 0)) with (5 * 5) by ring.
  apply sqrt_square. lra.
Qed.

Lemma sphere_sdf_squared_form_witness :
  get_sphere_sdf 5 [[3; 4]] = Ok [0] /\
  get_sphere_sdf 6 [[3; 4]] = Ok [5 ^ 2 - 6 ^ 2] /\ 5 ^ 2 - 6 ^ 2 < 0 /\
  5 ^ 2 - 2 ^ 2 > 0.
Proof.
  destruct sphere_sdf_squared_form as [_ Hpt].
  destruct (Hpt 5 5 [3; 4] norm_3_4) as (_ & Hzero & _ & _).
  destruct (Hpt 6 5 [3; 4] norm_3_4) as (Hval & _ & Hneg & _).
  destruct (Hpt 2 5 [3; 4] norm_3_4) as (_ & _ & _ & Hpos).
  split; [apply Hzero; reflexivity|].
  split; [exact Hval|].
  split; [apply Hneg; lra|].
  apply Hpos; lra.
Defined.

(** ** The annular combinator on plain tensors *)

Lemma make_annular_plain (sdf_func : points -> outcome scalars) (r : R) (x : points) :
  make_annular sdf_func r x =
  (sdf_values <- sdf_func x ;; Ok (map (fun v => Rabs v - r) sdf_values)).
Proof.
  unfold make_annular, bind. destruct (sdf_func x) as [v | e |]; try reflexivity.
  cbn [t_sub_scalar t_abs plain_ops]. now rewrite map_map.
Qed.

(** C2. [make_annular(sdf_func, r)] evaluates to [|sdf_func(x)| - r] at every
    point: it returns that tensor whenever [sdf_func] returns, and fails as
    [sdf_func] fails otherwise. *)
Theorem make_annular_abs_minus_r (sdf_func : points -> outcome scalars)
    (r : R) (x : points) :
  make_annular sdf_func r x =
  match sdf_func x with
  | Ok sdf_values => Ok (map (fun v => Rabs v - r) sdf_values)
  | Raise e => Raise e
  | NonFinite => NonFinite
  end.
Proof. rewrite make_annular_plain. now destruct (sdf_func x). Qed.

Lemma annular_sphere_plain (r t : R) (p : row) :
  make_annular (get_sphere_sdf r) t [p] = Ok [Rabs (sumsq p - r ^ 2) - t].
Proof. rewrite make_annular_plain, sphere_sdf_plain. reflexivity. Qed.

Lemma norm_1_0 : norm [1; 0] = 1.
Proof.
  unfold norm. simpl.
  replace (1 * (1 * 1) + (0 * (0 * 1) + 0)) with 1 by ring.
  apply sqrt_1.
Qed.

(** C3 as stated fails: with [r = 2] and [t = 1] the point [(1, 0)] lies at
    distance [r - t] from the origin and the shell of the sphere evaluates to
    [2] there. *)
Lemma annular_sphere_not_zero_at_r_minus_t :
  0 < 2 /\ 0 < 1 < 2 /\ norm [1; 0] = 2 - 1 /\
  make_annular (get_sphere_sdf 2) 1 [[1; 0]] = Ok [2] /\
  make_annular (get_sphere_sdf 2) 1 [[1; 0]] <> Ok [0].
Proof.
  assert (H : make_annular (get_sphere_sdf 2) 1 [[1; 0]] = Ok [2]).
  { rewrite annular_sphere_plain.
    replace (sumsq [1; 0] - 2 ^ 2) with (- (3)) by (unfold sumsq; simpl; ring).
    rewrite Rabs_Ropp, Rabs_pos_eq by lra. do 2 f_equal. ring. }
  repeat split; try lra.
  - rewrite norm_1_0. ring.
  - exact H.
  - rewrite H. intros Heq. injection Heq. lra.
Qed.

(** C3, amended.  The shell of the sphere is in squared-distance form: for
    [r > 0] and [0 < t < r] it evaluates to [0] at every point whose squared
    distance from the origin is [r^2 - t] or [r^2 + t], and to a negative
    value at every point whose squared distance lies strictly between. *)
Theorem annular_sphere_zero_crossings (r t : R) (p : row)
    (Hr : 0 < r) (Ht : 0 < t < r) :
  (norm p ^ 2 = r ^ 2 - t -> make_annular (get_sphere_sdf r) t [p] = Ok [0]) /\
  (norm p ^ 2 = r ^ 2 + t -> make_annular (get_sphere_sdf r) t [p] = Ok [0]) /\
  (r ^ 2 - t < norm p ^ 2 < r ^ 2 + t ->
   exists v, make_annular (get_sphere_sdf r) t [p] = Ok [v] /\ v < 0).
Proof.
  rewrite annular_sphere_plain, norm_sq.
  repeat split.
  - intros ->. do 2 f_equal.
    replace (r ^ 2 - t - r ^ 2) with (- t) by ring.
    rewrite Rabs_Ropp, Rabs_pos_eq; lra.
  - intros ->. do 2 f_equal.
    replace (r ^ 2 + t - r ^ 2) with t by ring.
    rewrite Rabs_pos_eq; lra.
  - intros [Hlo Hhi]. eexists. split; [reflexivity|].
    assert (Habs : Rabs (sumsq p - r ^ 2) < t) by (apply Rabs_def1; lra).
    lra.
Qed.

Lemma annular_sphere_zero_crossings_witness :
  make_annular (get_sphere_sdf 2) 1 [[1; 1; 1]] = Ok [0] /\
  make_annular (get_sphere_sdf 2) 1 [[2; 1]] = Ok [0] /\
  (exists v, make_annular (get_sphere_sdf 2) 1 [[2; 0]] = Ok [v] /\ v < 0).
Proof.
  assert (Hr : 0 < 2) by lra.
  assert (Ht : 0 < 1 < 2) by lra.
  destruct (annular_sphere_zero_crossings 2 1 [1; 1; 1] Hr Ht) as (Hin & _ & _).
  destruct (annular_sphere_zero_crossings 2 1 [2; 1] Hr Ht) as (_ & Hout & _).
  destruct (annular_sphere_zero_crossings 2 1 [2; 0] Hr Ht) as (_ & _ & Hmid).
  split; [|split].
  - apply Hin. rewrite norm_sq. unfold sumsq. simpl. ring.
  - apply Hout. rewrite norm_sq. unfold sumsq. simpl. ring.
  - apply Hmid. rewrite norm_sq. unfold sumsq. simpl. lra.
Defined.

(** Two shells in a row: [||v| - t1| - t2] against [|v| - (t1 + t2)]. *)
Lemma annular_twice_plain (sdf_func : points -> outcome scalars) (t1 t2 : R)
    (x : points) (sdf_values : scalars) :
  sdf_func x = Ok sdf_values ->
  make_annular (make_annular sdf_func t1) t2 x =
  Ok (map (fun v => Rabs (Rabs v - t1) - t2) sdf_values).
Proof.
  intros Hf.
  rewrite make_annular_plain, make_annular_plain, Hf. cbn [bind].
  now rewrite map_map.
Qed.

(** On the zero level set of the wrapped SDF, two shells of thickness
    [t1 > 0] and [t2] give [t1 - t2] where one shell of thickness [t1 + t2]
    gives [-(t1 + t2)]. *)
Lemma annular_twice_differs_on_boundary (t1 t2 : R) :
  0 < t1 ->
  make_annular (make_annular (get_sphere_sdf 1) t1) t2 [[1; 0]] = Ok [t1 - t2] /\
  make_annular (get_sphere_sdf 1) (t1 + t2) [[1; 0]] = Ok [- t1 - t2] /\
  t1 - t2 <> - t1 - t2.
Proof.
  intros Ht1.
  assert (H0 : sumsq [1; 0] - 1 ^ 2 = 0) by (unfold sumsq; simpl; ring).
  repeat split.
  - rewrite (annular_twice_plain _ _ _ _ _ (sphere_sdf_plain 1 [[1; 0]])).
    cbn [map]. rewrite H0, Rabs_R0.
    replace (0 - t1) with (- t1) by ring.
    rewrite Rabs_Ropp, Rabs_pos_eq by lra. reflexivity.
  - rewrite annular_sphere_plain, H0, Rabs_R0. do 2 f_equal. ring.
  - lra.
Qed.

(** C7. Applying the annular combinator with thickness [t1] and then [t2] is
    not the same as applying it once with thickness [t1 + t2]: for some SDF,
    thicknesses and point both calls return a value, and the two values
    differ. *)
Theorem annular_composition_not_additive :
  exists (sdf_func : points -> outcome scalars) (t1 t2 : R) (x : points)
         (twice once : R),
    make_annular (make_annular sdf_func t1) t2 x = Ok [twice] /\
    make_annular sdf_func (t1 + t2) x = Ok [once] /\
    twice <> once.
Proof.
  exists (get_sphere_sdf 1), 1, 1, [[1; 0]], (1 - 1), (- (1) - 1).
  exact (annular_twice_differs_on_boundary 1 1 Rlt_0_1).
Qed.

(** C10. Whatever the wrapped SDF, the thickness and the points, no value that
    [make_annular(sdf_func, r)] returns is below [-r]. *)
Theorem make_annular_lower_bound (sdf_func : points -> outcome scalars)
    (r : R) (x : points) (out : scalars) :
  make_annular sdf_func r x = Ok out ->
  Forall (fun v => - r <= v) out.
Proof.
  rewrite make_annular_plain.
  destruct (sdf_func x) as [vs | e |]; try discriminate.
  cbn [bind]. intros Heq. injection Heq as <-.
  apply Forall_forall. intros v Hin.
  apply in_map_iff in Hin. destruct Hin as (a & <- & _).
  pose proof (Rabs_pos a). lra.
Qed.

Lemma make_annular_lower_bound_witness :
  Forall (fun v => - (1) <= v) [Rabs (sumsq [3; 4] - 5 ^ 2) - 1].
Proof.
  apply (make_annular_lower_bound (get_sphere_sdf 5) 1 [[3; 4]]).
  apply annular_sphere_plain.
Defined.

(** ** Reverse mode through the sphere SDF *)

Lemma sum_map_scale {A : Type} (c : R) (f : A -> R) (l : list A) :
  sum (map (fun a => c * f a) l) = c * sum (map f l).
Proof.
  induction l as [|a l IH]; cbn [map sum fold_right].
  - ring.
  - fold (sum (map (fun a => c * f a) l)). fold (sum (map f l)).
    rewrite IH. ring.
Qed.

Lemma sum_map_ext {A : Type} (f g : A -> R) (l : list A) :
  (forall a, f a = g a) -> sum (map f l) = sum (map g l).
Proof. intros Hfg. f_equal. apply map_ext, Hfg. Qed.

(** The graph that [get_sphere_sdf(r)] records on a leaf. *)
Lemma sphere_sdf_tracked (r : R) (x : points) :
  get_sphere_sdf r (leaf x) =
  Ok (mk_tracked (map (fun p => sumsq p - r ^ 2) x)
        (Some (fun c =>
                 mul2 (expand_last (map (map (fun v => v ^ 2)) x) c)
                      (map (map (fun v => INR 2 * v ^ 1)) x)))).
Proof.
  unfold get_sphere_sdf.
  cbn [t_sub_scalar t_sum_last t_pow tracked_ops plain_ops data grad_fn leaf
       backward pred].
  rewrite !map_map. reflexivity.
Qed.

(** The forward value does not depend on whether the graph is recorded. *)
Lemma sphere_sdf_tracked_data (r : R) (x : points) :
  bind (get_sphere_sdf r (leaf x)) (fun v => Ok (data v)) = get_sphere_sdf r x.
Proof. now rewrite sphere_sdf_tracked, sphere_sdf_plain. Qed.

Lemma sphere_row_grad (p : row) :
  mul1 (map (fun _ => 1) (map (fun v => v ^ 2) p)) (map (fun v => INR 2 * v ^ 1) p)
  = map (fun v => 2 * v) p.
Proof.
  unfold mul1. induction p as [|v p IH]; simpl.
  - reflexivity.
  - simpl in IH. rewrite IH. f_equal. ring.
Qed.

(** Seeded with ones, the backward pass of the sphere SDF returns [2 x]. *)
Lemma sphere_grad (x : points) (vals : list R) :
  length vals = length x ->
  mul2 (expand_last (map (map (fun v => v ^ 2)) x) (ones_like vals))
       (map (map (fun v => INR 2 * v ^ 1)) x)
  = map (map (fun v => 2 * v)) x.
Proof.
  unfold mul2, expand_last, ones_like.
  revert vals. induction x as [|p x IH]; intros [|a vals] Hlen;
    simpl in Hlen; try discriminate; [reflexivity|].
  injection Hlen as Hlen.
  cbn [map combine fst snd]. rewrite (IH vals Hlen).
  f_equal. apply sphere_row_grad.
Qed.

Lemma sum_all_sq_double (x : points) :
  sum_all (t_pow (map (map (fun v => 2 * v)) x) 2) = 4 * sum (map sumsq x).
Proof.
  unfold sum_all. cbn [t_pow plain_ops].
  rewrite !map_map, <- sum_map_scale.
  apply sum_map_ext. intros p.
  unfold sumsq. rewrite !map_map, <- sum_map_scale.
  apply sum_map_ext. intros v. ring.
Qed.

(** The normal field of the sphere SDF on a batch: the gradient [2 x] over the
    norm of the whole gradient tensor. *)
Lemma sphere_normal_field (r : R) (x : tensor_obj) :
  get_normal_field (get_sphere_sdf r) x =
  (requires_grad_ x true,
   Ok (map (map (fun v => tdiv (2 * v) (2 * sqrt (sum (map sumsq (t_data x))))))
         (t_data x))).
Proof.
  unfold get_normal_field. f_equal.
  cbn [t_data requires_grad_].
  rewrite sphere_sdf_tracked.
  cbn [bind autograd_grad grad_fn data].
  rewrite sphere_grad by now rewrite length_map.
  rewrite sum_all_sq_double, map_map.
  replace (sqrt (4 * sum (map sumsq (t_data x))))
    with (2 * sqrt (sum (map sumsq (t_data x)))).
  - f_equal. apply map_ext. intros p. rewrite map_map. reflexivity.
  - rewrite sqrt_mult_alt by lra.
    replace 4 with (2 * 2) by ring. rewrite sqrt_square by lra. reflexivity.
Qed.

Lemma sumsq_pos (p : row) : Exists (fun v => v <> 0) p -> 0 < sumsq p.
Proof.
  unfold sumsq. induction 1 as [v p Hv | v p _ IH]; cbn [map sum fold_right].
  - fold (sum (map (fun v => v ^ 2) p)). pose proof (sumsq_nonneg p) as Hp.
    unfold sumsq in Hp. nra.
  - fold (sum (map (fun v => v ^ 2) p)). nra.
Qed.

Lemma norm_pos (p : row) : Exists (fun v => v <> 0) p -> 0 < norm p.
Proof. intros Hp. unfold norm. apply sqrt_lt_R0. now apply sumsq_pos. Qed.

Lemma tdiv_finite (a b : R) : b <> 0 -> tdiv a b = FFinite (a / b).
Proof. intros Hb. unfold tdiv. now destruct (Req_dec_T b 0). Qed.

Lemma tdiv_0_0 : tdiv 0 0 = FNaN.
Proof.
  unfold tdiv. destruct (Req_dec_T 0 0) as [_|Hne]; [reflexivity|].
  now contradiction Hne.
Qed.



(** One point: the normal field of the sphere SDF is [p / |p|]. *)
Lemma sphere_normal_single_point (r : R) (x : tensor_obj) (p : row) :
  t_data x = [p] ->
  Exists (fun v => v <> 0) p ->
  snd (get_normal_field (get_sphere_sdf r) x)
  = Ok [map (fun v => FFinite (v / norm p)) p].
Proof.
  intros Hx Hp.
  pose proof (norm_pos p Hp) as Hn.
  rewrite sphere_normal_field, Hx. cbn [snd map sum fold_right].
  rewrite Rplus_0_r. change (sqrt (sumsq p)) with (norm p).
  do 2 f_equal. apply map_ext. intros v.
  rewrite tdiv_finite by lra. f_equal. field. lra.
Qed.


(** A field that does not depend on its input has no graph to differentiate:
    [torch.autograd.grad] raises. *)
Lemma normal_of_constant_raises (v : scalars) (x : tensor_obj) :
  get_normal_field (fun _ => Ok (detached v)) x
  = (requires_grad_ x true, Raise RuntimeError).
Proof. reflexivity. Qed.

(** ** Zero gradients *)

Lemma sum_zero (l : list R) : Forall (fun v => v = 0) l -> sum l = 0.
Proof.
  induction 1 as [|v l Hv _ IH]; cbn [sum fold_right].
  - reflexivity.
  - fold (sum l). lra.
Qed.

Lemma sum_all_sq_zero (g : points) :
  Forall (Forall (fun v => v = 0)) g -> sum_all (t_pow g 2) = 0.
Proof.
  intros Hg. unfold sum_all. cbn [t_pow plain_ops]. rewrite map_map.
  apply sum_zero. apply Forall_map. revert Hg. apply Forall_impl.
  intros p Hp. apply sum_zero. apply Forall_map. revert Hp. apply Forall_impl.
  intros v ->. ring.
Qed.

(** C5 as stated fails: at the origin, the normal field of the sphere SDF
    raises nothing and returns NaN in both components. *)
Lemma normal_at_origin_is_nan :
  let res := snd (get_normal_field (get_sphere_sdf 1) (mk_tensor [[0; 0]] false None)) in
  res = Ok [[FNaN; FNaN]] /\ (forall e, res <> Raise e) /\ res <> NonFinite.
Proof.
  cbv zeta. rewrite sphere_normal_field. cbn [snd t_data map sum fold_right].
  replace (2 * sqrt (sumsq [0; 0] + 0)) with 0.
  - replace (2 * 0) with 0 by ring. rewrite tdiv_0_0.
    repeat split; intros; discriminate.
  - replace (sumsq [0; 0] + 0) with 0 by (unfold sumsq; simpl; ring).
    rewrite sqrt_0. ring.
Qed.

(** C5, amended.  Where the gradient that autograd returns is zero in every
    component, the normal field extractor raises nothing: it returns a tensor
    of the gradient's shape whose every component is NaN. *)
Theorem zero_gradient_gives_nan
    (f : tracked points -> outcome (tracked scalars)) (x : tensor_obj)
    (f_value : tracked scalars) (bw : scalars -> points) :
  f (leaf (t_data x)) = Ok f_value ->
  grad_fn f_value = Some bw ->
  Forall (Forall (fun v => v = 0)) (bw (ones_like (data f_value))) ->
  snd (get_normal_field f x) =
  Ok (map (map (fun _ => FNaN)) (bw (ones_like (data f_value)))).
Proof.
  intros Hf Hbw Hzero.
  unfold get_normal_field. cbn [snd t_data requires_grad_].
  rewrite Hf. cbn [bind]. unfold autograd_grad. rewrite Hbw. cbn [bind].
  rewrite (sum_all_sq_zero _ Hzero), sqrt_0.
  f_equal. apply map_ext_in. intros p Hin. apply map_ext_in. intros v Hv.
  rewrite Forall_forall in Hzero. specialize (Hzero p Hin).
  rewrite Forall_forall in Hzero. rewrite (Hzero v Hv). apply tdiv_0_0.
Qed.

Lemma zero_gradient_gives_nan_witness :
  snd (get_normal_field (get_sphere_sdf 1) (mk_tensor [[0; 0]] false None))
  = Ok [[FNaN; FNaN]].
Proof.
  refine (zero_gradient_gives_nan (get_sphere_sdf 1)
            (mk_tensor [[0; 0]] false None) _ _ eq_refl eq_refl _).
  unfold mul2, mul1, expand_last. simpl.
  repeat (apply Forall_cons || apply Forall_nil); ring.
Defined.

(** ** What a call of the normal field leaves behind *)

(** C9 as stated fails: the call sets the gradient-tracking flag of the
    caller's tensor. *)
Lemma normal_field_sets_requires_grad :
  let x := mk_tensor [[1; 0]] false None in
  requires_grad x = false /\
  requires_grad (fst (get_normal_field (get_sphere_sdf 1) x)) = true /\
  fst (get_normal_field (get_sphere_sdf 1) x) <> x.
Proof.
  cbv zeta. repeat split. intros Heq.
  apply (f_equal requires_grad) in Heq. discriminate Heq.
Qed.

(** C9, amended.  A call of the function that [get_normal_field] returns
    leaves the data and the [.grad] of the caller's tensor as they were and
    sets its gradient-tracking flag, whatever the flag was; what the call
    returns depends on the tensor's data alone. *)
Theorem normal_field_frame
    (f : tracked points -> outcome (tracked scalars)) (x : tensor_obj) :
  t_data (fst (get_normal_field f x)) = t_data x /\
  t_grad (fst (get_normal_field f x)) = t_grad x /\
  requires_grad (fst (get_normal_field f x)) = true /\
  (forall (flag : bool) (g : option points),
      snd (get_normal_field f (mk_tensor (t_data x) flag g))
      = snd (get_normal_field f x)).
Proof. repeat split. Qed.

(** ** The star SDF *)

Lemma Int_part_0 : Int_part 0 = 0%Z.
Proof. symmetry. apply Int_part_spec. simpl. lra. Qed.

Lemma remainder_0 (b : R) : remainder 0 b = 0.
Proof.
  unfold remainder. replace (0 / b) with 0 by (unfold Rdiv; ring).
  rewrite Int_part_0. simpl. ring.
Qed.

Lemma atan2_0_nonneg (x0 : R) : 0 <= x0 -> atan2 0 x0 = 0.
Proof.
  intros Hx. unfold atan2.
  destruct (total_order_T x0 0) as [[Hlt | Heq] | Hgt].
  - lra.
  - destruct (total_order_T 0 0) as [[H | H] | H]; lra.
  - replace (0 / x0) with 0 by (unfold Rdiv; ring). apply atan_0.
Qed.

Lemma sign_pos (v : R) : 0 < v -> sign v = 1.
Proof.
  intros Hv. unfold sign.
  destruct (total_order_T v 0) as [[H | H] | H]; lra.
Qed.

Lemma sign_0 : sign 0 = 0.
Proof.
  unfold sign. destruct (total_order_T 0 0) as [[H | H] | H]; lra.
Qed.

Lemma norm_pair (a b : R) : norm [a; b] = sqrt (a ^ 2 + b ^ 2).
Proof. unfold norm. simpl. f_equal. ring. Qed.

Lemma cos2_sin2 (a : R) : cos a ^ 2 + sin a ^ 2 = 1.
Proof. pose proof (sin2_cos2 a) as H. unfold Rsqr in H. lra. Qed.

(** Scaling a unit direction: [|k (cos a, sin a)| = k] for [k >= 0]. *)
Lemma norm_scaled_direction (k a : R) :
  0 <= k -> norm [k * cos a; k * sin a] = k.
Proof.
  intros Hk. rewrite norm_pair.
  replace ((k * cos a) ^ 2 + (k * sin a) ^ 2)
    with ((cos a ^ 2 + sin a ^ 2) * (k * k)) by ring.
  rewrite cos2_sin2, Rmult_1_l. now apply sqrt_square.
Qed.

(** On the ray that folds onto a tip of the star ([atan2 = 0]), with
    [m = n] and the half-angle in the first quadrant, the star SDF is
    [max (|p| - r) 0]: zero up to the tip, the distance to the tip beyond. *)
Lemma star_sdf_row_tip_ray (r an x0 : R) (rest : row) :
  0 <= r -> 0 < an < PI / 2 -> 0 <= x0 ->
  star_sdf_row r an an (x0 :: 0 :: rest)
  = Ok (Rmax (norm (x0 :: 0 :: rest) - r) 0).
Proof.
  intros Hr Han Hx0.
  assert (Hc : 0 < cos an) by (apply cos_gt_0; lra).
  assert (Hs : 0 < sin an) by (apply sin_gt_0; lra).
  pose proof (norm_nonneg (x0 :: 0 :: rest)) as Hrho.
  unfold star_sdf_row. cbn [index nth_error bind fst snd].
  set (rho := norm (x0 :: 0 :: rest)) in *.
  rewrite atan2_0_nonneg, remainder_0 by exact Hx0.
  replace (0 - an) with (- an) by ring.
  rewrite cos_neg, sin_neg, Rabs_Ropp, (Rabs_pos_eq (sin an)) by lra.
  rewrite tdiv_finite by lra. cbn [finite bind].
  replace (r * sin an / sin an) with r by (field; lra).
  replace (- ((rho * cos an - r * cos an) * cos an
              + (rho * sin an - r * sin an) * sin an))
    with ((cos an ^ 2 + sin an ^ 2) * (r - rho)) by ring.
  rewrite cos2_sin2, Rmult_1_l.
  unfold clamp. f_equal.
  destruct (Rle_dec r rho) as [Hle | Hgt].
  - rewrite (Rmax_right (r - rho) 0), (Rmin_left 0 r) by lra.
    rewrite (Rmax_left (rho - r) 0) by lra.
    replace (rho * cos an - r * cos an + cos an * 0) with ((rho - r) * cos an) by ring.
    replace (rho * sin an - r * sin an + sin an * 0) with ((rho - r) * sin an) by ring.
    rewrite norm_scaled_direction by lra.
    destruct (Req_dec_T rho r) as [-> | Hne].
    + replace (r - r) with 0 by ring. ring.
    + rewrite sign_pos by nra. ring.
  - rewrite (Rmax_left (r - rho) 0), (Rmin_left (r - rho) r) by lra.
    rewrite (Rmax_right (rho - r) 0) by lra.
    replace (rho * cos an - r * cos an + cos an * (r - rho)) with 0 by ring.
    replace (rho * sin an - r * sin an + sin an * (r - rho)) with 0 by ring.
    rewrite sign_0. ring.
Qed.

Lemma remainder_bounds (a b : R) : 0 < b -> 0 <= remainder a b < b.
Proof.
  intros Hb. unfold remainder.
  destruct (base_Int_part (a / b)) as [Hle Hgt].
  set (k := IZR (Int_part (a / b))) in *.
  assert (Hab : a = b * (a / b)) by (field; lra).
  split.
  - assert (b * k <= b * (a / b)) by (apply Rmult_le_compat_l; lra). lra.
  - assert (b * (a / b - 1) < b * k) by (apply Rmult_lt_compat_l; lra). lra.
Qed.

(** The folded angle [bn] lies in the canonical sector [[-an, an)]. *)
Lemma folded_angle_bounds (a an : R) :
  0 < an -> - an <= remainder a (2 * an) - an < an.
Proof.
  intros Han. destruct (remainder_bounds a (2 * an)) as [H0 H1]; lra.
Qed.

Lemma cos_folded_lower (b an : R) :
  0 < an < PI / 2 -> - an <= b < an -> cos an <= cos b.
Proof.
  intros Han Hb. pose proof PI_RGT_0 as Hpi.
  destruct (Rle_dec 0 b) as [Hpos | Hneg].
  - apply cos_decr_1; lra.
  - rewrite <- (cos_neg b). apply cos_decr_1; lra.
Qed.

(** Far from the star ([r < |p| cos(an)^2], with [m = n] and the half-angle
    in the first quadrant) the clamp is inactive and the star SDF at [p] lies
    between [|p| - r] and [|p|]. *)
Lemma star_sdf_row_far (r an x0 x1 : R) (rest : row) :
  0 <= r -> 0 < an < PI / 2 ->
  r < norm (x0 :: x1 :: rest) * cos an ^ 2 ->
  exists v,
    star_sdf_row r an an (x0 :: x1 :: rest) = Ok v /\
    norm (x0 :: x1 :: rest) - r <= v <= norm (x0 :: x1 :: rest).
Proof.
  intros Hr Han Hfar.
  assert (Hc : 0 < cos an) by (apply cos_gt_0; lra).
  assert (Hs : 0 < sin an) by (apply sin_gt_0; lra).
  pose proof (cos2_sin2 an) as Hcs.
  pose proof (norm_nonneg (x0 :: x1 :: rest)) as Hrho.
  unfold star_sdf_row. cbn [index nth_error bind fst snd].
  set (rho := norm (x0 :: x1 :: rest)) in *.
  set (bn := remainder (atan2 x1 x0) (2 * an) - an).
  assert (Hbn : - an <= bn < an) by (apply folded_angle_bounds; lra).
  pose proof (cos_folded_lower bn an Han Hbn) as Hcb.
  pose proof (Rabs_pos (sin bn)) as Hsb.
  assert (Hb1 : cos bn ^ 2 + Rabs (sin bn) ^ 2 = 1).
  { rewrite pow2_abs. apply cos2_sin2. }
  set (cb := cos bn) in *. set (sb := Rabs (sin bn)) in *.
  set (c := cos an) in *. set (s := sin an) in *.
  rewrite tdiv_finite by lra. cbn [finite bind].
  replace (r * s / s) with r by (field; lra).
  assert (Hc1 : c <= 1) by nra.
  assert (Hrho_r : r < rho) by nra.
  (* the projection on the edge direction *)
  set (C := cb * c + sb * s).
  assert (HC_lo : c ^ 2 <= C) by (unfold C; nra).
  assert (HC_hi : C <= 1).
  { assert (HC2 : C ^ 2 <= 1).
    { unfold C. assert (0 <= (cb * s - sb * c) ^ 2) by apply pow2_ge_0. nra. }
    destruct (Rle_dec C 1) as [Hle | Hgt]; [exact Hle | nra]. }
  assert (Hdot : - ((rho * cb - r * c) * c + (rho * sb - r * s) * s) <= 0).
  { replace ((rho * cb - r * c) * c + (rho * sb - r * s) * s)
      with (rho * C - r * (c ^ 2 + s ^ 2)) by (unfold C; ring).
    rewrite Hcs. nra. }
  unfold clamp. rewrite Rmax_right, Rmin_left by lra.
  rewrite !Rmult_0_r, !Rplus_0_r.
  assert (Hq0 : 0 < rho * cb - r * c) by nra.
  rewrite sign_pos, Rmult_1_r, norm_pair by exact Hq0.
  replace ((rho * cb - r * c) ^ 2 + (rho * sb - r * s) ^ 2)
    with (rho ^ 2 * (cb ^ 2 + sb ^ 2) + r ^ 2 * (c ^ 2 + s ^ 2) - 2 * rho * r * C)
    by (unfold C; ring).
  rewrite Hb1, Hcs, !Rmult_1_r.
  assert (Hrr : 0 <= rho * r) by nra.
  assert (HrC : r <= rho * C) by nra.
  assert (Hlo : 0 <= rho * r * (1 - C)) by (apply Rmult_le_pos; lra).
  assert (Hhi : 0 <= r * (rho * C - r)) by (apply Rmult_le_pos; lra).
  clearbody C rho.
  eexists. split; [reflexivity|]. split.
  - apply Rle_trans with (sqrt ((rho - r) * (rho - r))).
    + rewrite sqrt_square; lra.
    + apply sqrt_le_1_alt. nra.
  - apply Rle_trans with (sqrt (rho * rho)).
    + apply sqrt_le_1_alt. nra.
    + rewrite sqrt_square; lra.
Qed.

Lemma py_div_nonzero (a b : R) : b <> 0 -> py_div a b = Ok (a / b).
Proof. intros Hb. unfold py_div. now destruct (Req_dec_T b 0). Qed.

Lemma get_star_sdf_single (r n m : R) (p : row) :
  n <> 0 -> m <> 0 ->
  get_star_sdf r n m [p] = (v <- star_sdf_row r (PI / n) (PI / m) p ;; Ok [v]).
Proof.
  intros Hn Hm. unfold get_star_sdf.
  rewrite !py_div_nonzero by assumption. reflexivity.
Qed.

Lemma PI5_first_quadrant : 0 < PI / 5 < PI / 2.
Proof. pose proof PI_RGT_0. lra. Qed.

Lemma cos_PI5_lower : 1 / 2 <= cos (PI / 5).
Proof.
  pose proof PI_RGT_0. rewrite <- cos_PI3. apply cos_decr_1; lra.
Qed.

Lemma norm_axis_x (a : R) : norm [a; 0] = Rabs a.
Proof.
  rewrite norm_pair. replace (a ^ 2 + 0 ^ 2) with (Rsqr a) by (unfold Rsqr; ring).
  apply sqrt_Rsqr_abs.
Qed.

Lemma norm_axis_y (a : R) : norm [0; a] = Rabs a.
Proof.
  rewrite norm_pair. replace (0 ^ 2 + a ^ 2) with (Rsqr a) by (unfold Rsqr; ring).
  apply sqrt_Rsqr_abs.
Qed.


(** The star of [n = 5, m = 5, r = 1] on the ray through a tip. *)
Lemma star_115_tip_ray (x0 : R) (rest : row) :
  0 <= x0 ->
  get_star_sdf 1 5 5 [x0 :: 0 :: rest] = Ok [Rmax (norm (x0 :: 0 :: rest) - 1) 0].
Proof.
  intros Hx0. rewrite get_star_sdf_single by lra.
  rewrite star_sdf_row_tip_ray; [reflexivity | lra | apply PI5_first_quadrant | exact Hx0].
Qed.

(** The star of [n = 5, m = 5, r = 1] at distance [10] from the origin. *)
Lemma star_115_at_distance_10 (x0 x1 : R) (rest : row) :
  norm (x0 :: x1 :: rest) = 10 ->
  exists v, get_star_sdf 1 5 5 [x0 :: x1 :: rest] = Ok [v] /\ 9 <= v <= 10.
Proof.
  intros Hn. rewrite get_star_sdf_single by lra.
  destruct (star_sdf_row_far 1 (PI / 5) x0 x1 rest) as (v & Hv & Hb).
  - lra.
  - apply PI5_first_quadrant.
  - rewrite Hn. pose proof cos_PI5_lower. nra.
  - exists v. rewrite Hv. split; [reflexivity | lra].
Qed.

Lemma star_115_origin : get_star_sdf 1 5 5 [[0; 0]] = Ok [0].
Proof.
  rewrite star_115_tip_ray by lra. rewrite norm_axis_x, Rabs_R0.
  rewrite Rmax_right by lra. reflexivity.
Qed.

(** C6 as stated fails at the origin: the value there is [0], not a negative
    number (with [m = n] the edges of the star run through the origin). *)
Lemma star_115_origin_not_negative :
  get_star_sdf 1 5 5 [[0; 0]] = Ok [0] /\
  (forall v, get_star_sdf 1 5 5 [[0; 0]] = Ok [v] -> ~ v < 0).
Proof.
  split; [apply star_115_origin|].
  intros v Hv. rewrite star_115_origin in Hv. injection Hv as <-. lra.
Qed.

(** C6, amended.  For the star SDF with [n = 5, m = 5, r = 1]: the origin
    yields [0]; the point [(10, 0)] yields [9 = 10 r - r]; the points of
    magnitude [10] on the other half-axes yield a value between [9] and
    [10]. *)
Theorem star_115_values :
  get_star_sdf 1 5 5 [[0; 0]] = Ok [0] /\
  get_star_sdf 1 5 5 [[10; 0]] = Ok [9] /\
  (exists v, get_star_sdf 1 5 5 [[-10; 0]] = Ok [v] /\ 9 <= v <= 10) /\
  (exists v, get_star_sdf 1 5 5 [[0; 10]] = Ok [v] /\ 9 <= v <= 10) /\
  (exists v, get_star_sdf 1 5 5 [[0; -10]] = Ok [v] /\ 9 <= v <= 10).
Proof.
  assert (Habs : Rabs 10 = 10) by (apply Rabs_pos_eq; lra).
  assert (Habs' : Rabs (-10) = 10).
  { replace (-10) with (- (10)) by lra. now rewrite Rabs_Ropp. }
  split; [apply star_115_origin|].
  split.
  { rewrite star_115_tip_ray by lra. rewrite norm_axis_x, Habs.
    rewrite Rmax_left by lra. do 2 f_equal. ring. }
  split; [|split]; apply star_115_at_distance_10.
  - now rewrite norm_axis_x.
  - now rewrite norm_axis_y.
  - now rewrite norm_axis_y.
Qed.

(** Where the code stops before the tensors: [torch.pi / n] with [n = 0] is
    a Python error. *)
Lemma star_sdf_n_zero (r m : R) (x : points) :
  get_star_sdf r 0 m x = Raise ZeroDivisionError.
Proof.
  unfold get_star_sdf, py_div.
  destruct (Req_dec_T 0 0) as [_ | Hne]; [reflexivity | now contradiction Hne].
Qed.

(** With [m = 1] the clamp bound [r sin(an) / sin(pi)] is a division by zero
    in exact arithmetic: the evaluation leaves the finite values. *)
Lemma star_sdf_m_one (r n x0 x1 : R) (rest : row) :
  n <> 0 -> get_star_sdf r n 1 [x0 :: x1 :: rest] = NonFinite.
Proof.
  intros Hn. rewrite get_star_sdf_single by (assumption || lra).
  unfold star_sdf_row. cbn [index nth_error bind snd].
  replace (PI / 1) with PI by field. rewrite sin_PI.
  unfold tdiv. destruct (Req_dec_T 0 0) as [_ | Hne]; [|now contradiction Hne].
  now destruct (Req_dec_T (r * sin (PI / n)) 0).
Qed.

(** ** Points of another dimensionality *)






(** * Further properties of the SDF closures *)

(** A shell of thickness [t1 <= 0] is nowhere negative, so a second shell
    adds up with it: here, and only here (see
    [annular_twice_differs_on_boundary]), two shells are one shell of
    thickness [t1 + t2]. *)
Theorem annular_additive_when_first_nonpositive
    (sdf_func : points -> outcome scalars) (t1 t2 : R) (x : points) :
  t1 <= 0 ->
  make_annular (make_annular sdf_func t1) t2 x = make_annular sdf_func (t1 + t2) x.
Proof.
  intros Ht1. rewrite !make_annular_plain.
  destruct (sdf_func x) as [vs | e |]; try reflexivity.
  cbn [bind]. rewrite map_map. f_equal. apply map_ext. intros v.
  pose proof (Rabs_pos v). rewrite (Rabs_pos_eq (Rabs v - t1)) by lra. ring.
Qed.

Lemma annular_additive_when_first_nonpositive_witness :
  make_annular (make_annular (get_sphere_sdf 1) (- (2))) 3 [[3; 4]]
  = make_annular (get_sphere_sdf 1) (- (2) + 3) [[3; 4]].
Proof.
  apply (annular_additive_when_first_nonpositive (get_sphere_sdf 1) (- (2)) 3).
  lra.
Defined.

Lemma sumsq_zero_iff (p : row) : sumsq p = 0 <-> Forall (fun v => v = 0) p.
Proof.
  unfold sumsq. induction p as [|v p IH]; cbn [map sum fold_right].
  - split; [constructor | reflexivity].
  - fold (sum (map (fun v => v ^ 2) p)).
    pose proof (sumsq_nonneg p) as Hp. unfold sumsq in Hp.
    assert (Hv : 0 <= v ^ 2) by apply pow2_ge_0.
    split.
    + intros Hsum.
      assert (Hv0 : v ^ 2 = 0) by lra.
      constructor; [nra | apply IH; lra].
    + intros Hall. inversion Hall as [|? ? Hv0 Hrest]; subst.
      apply IH in Hrest. rewrite Hrest. ring.
Qed.

(** The sphere SDF is bounded below by [- r^2], and takes that value at the
    origin only. *)
Theorem sphere_sdf_minimum (r : R) (p : row) :
  exists v, get_sphere_sdf r [p] = Ok [v] /\
            - r ^ 2 <= v /\
            (v = - r ^ 2 <-> Forall (fun a => a = 0) p).
Proof.
  exists (sumsq p - r ^ 2). rewrite sphere_sdf_plain.
  pose proof (sumsq_nonneg p) as Hp.
  split; [reflexivity|]. split; [lra|].
  rewrite <- sumsq_zero_iff. split; intros H; lra.
Qed.

(** ** The graph of a shell around the sphere *)

Lemma annular_sphere_tracked (r t : R) (x : points) :
  make_annular (get_sphere_sdf r) t (leaf x) =
  Ok (mk_tracked (map (fun p => Rabs (sumsq p - r ^ 2) - t) x)
        (Some (fun c =>
                 mul2 (expand_last (map (map (fun v => v ^ 2)) x)
                         (mul1 c (map sign (map (fun p => sumsq p - r ^ 2) x))))
                      (map (map (fun v => INR 2 * v ^ 1)) x)))).
Proof.
  unfold make_annular. rewrite sphere_sdf_tracked.
  cbn [bind t_sub_scalar t_abs tracked_ops plain_ops data grad_fn backward].
  rewrite !map_map. reflexivity.
Qed.

Lemma scaled_row_grad (k : R) (p : row) :
  mul1 (map (fun _ => k) (map (fun v => v ^ 2) p)) (map (fun v => INR 2 * v ^ 1) p)
  = map (fun v => k * (2 * v)) p.
Proof.
  unfold mul1. induction p as [|v p IH]; simpl.
  - reflexivity.
  - simpl in IH. rewrite IH. f_equal. ring.
Qed.

Lemma annular_sphere_grad_row (k : R) (p : row) :
  mul2 (expand_last [map (fun v => v ^ 2) p] (mul1 [1] [k]))
       [map (fun v => INR 2 * v ^ 1) p]
  = [map (fun v => k * (2 * v)) p].
Proof.
  change (mul1 [1] [k]) with [1 * k].
  unfold mul2, expand_last. cbn [combine map fst snd].
  now rewrite Rmult_1_l, scaled_row_grad.
Qed.

(** The normal field of a shell around the sphere at one point: the gradient
    [2 p] of the sphere SDF, multiplied by the sign of the sphere SDF. *)
Lemma annular_sphere_normal_field (r t : R) (x : tensor_obj) (p : row) :
  t_data x = [p] ->
  snd (get_normal_field (make_annular (get_sphere_sdf r) t) x)
  = Ok [map (fun v => tdiv (sign (sumsq p - r ^ 2) * (2 * v))
                        (sqrt (sign (sumsq p - r ^ 2) ^ 2 * (4 * sumsq p)))) p].
Proof.
  intros Hx. unfold get_normal_field. cbn [snd t_data requires_grad_].
  rewrite Hx, annular_sphere_tracked.
  cbn [bind autograd_grad grad_fn data].
  unfold ones_like. cbn [map]. rewrite annular_sphere_grad_row.
  set (k := sign (sumsq p - r ^ 2)).
  cbn [map]. do 2 f_equal. rewrite map_map.
  apply map_ext. intros v. f_equal. f_equal.
  unfold sum_all. cbn [t_pow plain_ops map sum fold_right].
  rewrite Rplus_0_r, map_map.
  rewrite (sum_map_ext _ (fun v => (k ^ 2 * 4) * v ^ 2)) by (intros a; ring).
  rewrite sum_map_scale. fold (sumsq p). ring.
Qed.

Lemma sign_neg (v : R) : v < 0 -> sign v = -1.
Proof.
  intros Hv. unfold sign.
  destruct (total_order_T v 0) as [[H | H] | H]; lra.
Qed.

Lemma sqrt_4_sumsq (p : row) : sqrt (4 * sumsq p) = 2 * norm p.
Proof.
  rewrite sqrt_mult_alt by lra.
  replace 4 with (2 * 2) by ring. rewrite sqrt_square by lra. reflexivity.
Qed.

(** Differentiating through [torch.abs]: away from the sphere and from the
    origin, the normal of a shell around the sphere is the radial unit
    vector, outward outside the sphere and inward inside it. *)
Theorem annular_sphere_normal_direction (r t : R) (x : tensor_obj) (p : row) :
  t_data x = [p] ->
  Exists (fun v => v <> 0) p ->
  (r ^ 2 < sumsq p ->
   snd (get_normal_field (make_annular (get_sphere_sdf r) t) x)
   = Ok [map (fun v => FFinite (v / norm p)) p]) /\
  (sumsq p < r ^ 2 ->
   snd (get_normal_field (make_annular (get_sphere_sdf r) t) x)
   = Ok [map (fun v => FFinite (- v / norm p)) p]).
Proof.
  intros Hx Hp. pose proof (norm_pos p Hp) as Hn.
  rewrite (annular_sphere_normal_field r t x p Hx).
  split; intros Hside.
  - rewrite sign_pos by lra. do 2 f_equal. apply map_ext. intros v.
    replace (1 ^ 2 * (4 * sumsq p)) with (4 * sumsq p) by ring.
    rewrite sqrt_4_sumsq, tdiv_finite by lra. f_equal. field. lra.
  - rewrite sign_neg by lra. do 2 f_equal. apply map_ext. intros v.
    replace ((-1) ^ 2 * (4 * sumsq p)) with (4 * sumsq p) by ring.
    rewrite sqrt_4_sumsq, tdiv_finite by lra. f_equal. field. lra.
Qed.

Lemma sumsq_3_4 : sumsq [3; 4] = 25.
Proof. unfold sumsq. simpl. ring. Qed.

Lemma annular_sphere_normal_direction_witness :
  snd (get_normal_field (make_annular (get_sphere_sdf 1) 2)
         (mk_tensor [[3; 4]] false None))
  = Ok [map (fun v => FFinite (v / norm [3; 4])) [3; 4]] /\
  snd (get_normal_field (make_annular (get_sphere_sdf 6) 2)
         (mk_tensor [[3; 4]] false None))
  = Ok [map (fun v => FFinite (- v / norm [3; 4])) [3; 4]].
Proof.
  assert (Hp : Exists (fun v => v <> 0) [3; 4]) by (apply Exists_cons_hd; lra).
  split.
  - apply (annular_sphere_normal_direction 1 2 (mk_tensor [[3; 4]] false None)
             [3; 4] eq_refl Hp).
    rewrite sumsq_3_4. lra.
  - apply (annular_sphere_normal_direction 6 2 (mk_tensor [[3; 4]] false None)
             [3; 4] eq_refl Hp).
    rewrite sumsq_3_4. lra.
Defined.

(** On the sphere itself [torch.abs] has gradient [0]: whatever the
    thickness, the normal of the shell is NaN in every component there. *)
Theorem annular_sphere_normal_nan_on_sphere (r t : R) (x : tensor_obj) (p : row) :
  t_data x = [p] ->
  sumsq p = r ^ 2 ->
  snd (get_normal_field (make_annular (get_sphere_sdf r) t) x)
  = Ok [map (fun _ => FNaN) p].
Proof.
  intros Hx Hon. rewrite (annular_sphere_normal_field r t x p Hx).
  replace (sumsq p - r ^ 2) with 0 by lra. rewrite sign_0.
  do 2 f_equal. apply map_ext. intros v.
  replace (0 * (2 * v)) with 0 by ring.
  replace (0 ^ 2 * (4 * sumsq p)) with 0 by ring.
  rewrite sqrt_0. apply tdiv_0_0.
Qed.

Lemma annular_sphere_normal_nan_on_sphere_witness :
  snd (get_normal_field (make_annular (get_sphere_sdf 5) 1)
         (mk_tensor [[3; 4]] false None))
  = Ok [[FNaN; FNaN]].
Proof.
  apply (annular_sphere_normal_nan_on_sphere 5 1 (mk_tensor [[3; 4]] false None)
           [3; 4] eq_refl).
  rewrite sumsq_3_4. ring.
Defined.

(** ** The normal field of any field *)

Lemma sum_all_sq (g : points) : sum_all (t_pow g 2) = sum (map sumsq g).
Proof. unfold sum_all. cbn [t_pow plain_ops]. now rewrite map_map. Qed.

Lemma sum_sumsq_nonneg (g : points) : 0 <= sum (map sumsq g).
Proof.
  induction g as [|p g IH]; cbn [map sum fold_right].
  - lra.
  - fold (sum (map sumsq g)). pose proof (sumsq_nonneg p). lra.
Qed.

Lemma sum_sumsq_pos (g : points) :
  Exists (Exists (fun v => v <> 0)) g -> 0 < sum (map sumsq g).
Proof.
  induction 1 as [p g Hp | p g _ IH]; cbn [map sum fold_right];
    fold (sum (map sumsq g)).
  - pose proof (sumsq_pos p Hp). pose proof (sum_sumsq_nonneg g). lra.
  - pose proof (sumsq_nonneg p). lra.
Qed.

Lemma sum_sumsq_scaled (k : R) (g : points) :
  sum (map sumsq (map (map (fun v => k * v)) g)) = k ^ 2 * sum (map sumsq g).
Proof.
  rewrite map_map, <- sum_map_scale. apply sum_map_ext. intros p.
  unfold sumsq. rewrite map_map, <- sum_map_scale.
  apply sum_map_ext. intros v. ring.
Qed.

(** Whatever the field and the batch, when the gradient that autograd
    returns is not zero everywhere, the result has only finite components:
    the gradient divided by one positive number, the norm of the whole
    gradient tensor.  The squares of all the components of the result, over
    the whole batch, add up to [1]. *)
Theorem normal_field_unit_over_batch
    (f : tracked points -> outcome (tracked scalars)) (x : tensor_obj)
    (f_value : tracked scalars) (bw : scalars -> points) :
  f (leaf (t_data x)) = Ok f_value ->
  grad_fn f_value = Some bw ->
  Exists (Exists (fun v => v <> 0)) (bw (ones_like (data f_value))) ->
  exists k : R,
    0 < k /\
    snd (get_normal_field f x)
    = Ok (map (map (fun g => FFinite (k * g))) (bw (ones_like (data f_value)))) /\
    sum (map sumsq (map (map (fun g => k * g)) (bw (ones_like (data f_value))))) = 1.
Proof.
  intros Hf Hbw Hnz.
  set (grad := bw (ones_like (data f_value))) in *.
  pose proof (sum_sumsq_pos grad Hnz) as Hpos.
  assert (Hn : 0 < sqrt (sum (map sumsq grad))) by now apply sqrt_lt_R0.
  exists (/ sqrt (sum (map sumsq grad))).
  split; [now apply Rinv_0_lt_compat|]. split.
  - unfold get_normal_field. cbn [snd t_data requires_grad_].
    rewrite Hf. cbn [bind]. unfold autograd_grad. rewrite Hbw. cbn [bind].
    fold grad. rewrite sum_all_sq. f_equal.
    apply map_ext. intros p. apply map_ext. intros g.
    rewrite tdiv_finite by lra. f_equal. unfold Rdiv. ring.
  - rewrite sum_sumsq_scaled.
    assert (Hsq : sqrt (sum (map sumsq grad)) * sqrt (sum (map sumsq grad))
                  = sum (map sumsq grad)) by (apply sqrt_sqrt; lra).
    rewrite <- Hsq at 2. field. lra.
Qed.

Lemma normal_field_unit_over_batch_witness :
  exists (k : R) (grad : points),
    0 < k /\
    snd (get_normal_field (get_sphere_sdf 1) (mk_tensor [[3; 4]; [0; 0]] false None))
    = Ok (map (map (fun g => FFinite (k * g))) grad) /\
    sum (map sumsq (map (map (fun g => k * g)) grad)) = 1.
Proof.
  edestruct (normal_field_unit_over_batch (get_sphere_sdf 1)
               (mk_tensor [[3; 4]; [0; 0]] false None))
    as (k & Hk & Hres & Hunit).
  - reflexivity.
  - reflexivity.
  - apply Exists_cons_hd, Exists_cons_hd. simpl. lra.
  - exists k. eexists. split; [exact Hk|]. split; [exact Hres | exact Hunit].
Defined.

(** A call that fails has already set the flag of the caller's tensor: both
    when the field raises and when its value carries no graph to
    differentiate. *)
Theorem normal_field_failure_after_flag
    (f : tracked points -> outcome (tracked scalars)) (x : tensor_obj) :
  (forall e, f (leaf (t_data x)) = Raise e ->
             get_normal_field f x = (requires_grad_ x true, Raise e)) /\
  (forall f_value, f (leaf (t_data x)) = Ok f_value ->
                   grad_fn f_value = None ->
                   get_normal_field f x = (requires_grad_ x true, Raise RuntimeError)).
Proof.
  split.
  - intros e He. unfold get_normal_field. cbn [t_data requires_grad_].
    now rewrite He.
  - intros fv Hf Hnone. unfold get_normal_field. cbn [t_data requires_grad_].
    rewrite Hf. cbn [bind]. unfold autograd_grad. now rewrite Hnone.
Qed.

Lemma normal_field_failure_after_flag_witness :
  get_normal_field (fun _ => Raise IndexError) (mk_tensor [[1; 0]] false None)
  = (mk_tensor [[1; 0]] true None, Raise IndexError) /\
  get_normal_field (fun _ => Ok (detached [0])) (mk_tensor [[1; 0]] false None)
  = (mk_tensor [[1; 0]] true None, Raise RuntimeError).
Proof.
  split.
  - apply (normal_field_failure_after_flag (fun _ => Raise IndexError)
             (mk_tensor [[1; 0]] false None)).
    reflexivity.
  - destruct (normal_field_failure_after_flag (fun _ => Ok (detached [0]))
                (mk_tensor [[1; 0]] false None)) as [_ Hnone].
    apply (Hnone (detached [0])); reflexivity.
Defined.

(** * Further properties of the star SDF *)

Lemma half_angle_first_quadrant (n : R) : 2 < n -> 0 < PI / n < PI / 2.
Proof.
  intros Hn. pose proof PI_RGT_0 as Hpi. split.
  - apply Rdiv_lt_0_compat; lra.
  - unfold Rdiv. apply Rmult_lt_compat_l; [exact Hpi|].
    apply Rinv_lt_contravar; lra.
Qed.

(** Without a star ([n = 0] or [m = 0]) the call stops in Python, before it
    looks at the points: also on an empty batch. *)
Theorem star_sdf_zero_parameter (r n m : R) (x : points) :
  n = 0 \/ m = 0 -> get_star_sdf r n m x = Raise ZeroDivisionError.
Proof.
  intros [-> | ->]; unfold get_star_sdf, py_div.
  - destruct (Req_dec_T 0 0) as [_ | Hne]; [reflexivity | now contradiction Hne].
  - destruct (Req_dec_T n 0) as [_ | _];
      [reflexivity | cbn [bind]].
    destruct (Req_dec_T 0 0) as [_ | Hne]; [reflexivity | now contradiction Hne].
Qed.

Lemma star_sdf_zero_parameter_witness :
  get_star_sdf 1 5 0 [] = Raise ZeroDivisionError.
Proof. apply star_sdf_zero_parameter. right. reflexivity. Defined.

(** In the exact arithmetic of this development, with [m = n > 2] the star
    has spikes without area: on the ray from the origin through a tip, the
    star SDF is [0] up to the tip at distance [r] and the distance to the tip
    beyond it.  (The [0] rests on [cos^2 + sin^2 = 1]; in floating point it
    can come out as a negative number of rounding size.) *)
Lemma star_sdf_spike (r n x0 : R) (rest : row) :
  0 <= r -> 2 < n -> 0 <= x0 ->
  get_star_sdf r n n [x0 :: 0 :: rest]
  = Ok [Rmax (norm (x0 :: 0 :: rest) - r) 0].
Proof.
  intros Hr Hn Hx0. rewrite get_star_sdf_single by lra.
  rewrite star_sdf_row_tip_ray;
    [reflexivity | exact Hr | now apply half_angle_first_quadrant | exact Hx0].
Qed.

(** With [m = n > 2], beyond a tip of the star, on the ray from the origin
    through that tip, the star SDF is the distance to the tip: [|p| - r]. *)
Theorem star_sdf_beyond_tip (r n x0 : R) (rest : row) :
  0 <= r -> 2 < n -> 0 <= x0 -> r < norm (x0 :: 0 :: rest) ->
  get_star_sdf r n n [x0 :: 0 :: rest] = Ok [norm (x0 :: 0 :: rest) - r].
Proof.
  intros Hr Hn Hx0 Hfar. rewrite get_star_sdf_single by lra.
  rewrite star_sdf_row_tip_ray;
    [| exact Hr | now apply half_angle_first_quadrant | exact Hx0].
  cbn [bind]. now rewrite Rmax_left by lra.
Qed.

Lemma star_sdf_beyond_tip_witness :
  get_star_sdf 2 6 6 [[10; 0]] = Ok [norm [10; 0] - 2].
Proof.
  apply star_sdf_beyond_tip; try lra.
  rewrite norm_axis_x, Rabs_pos_eq; lra.
Defined.

(** Far from the star ([m = n > 2] and [r < |p| cos(pi/n)^2]) the star SDF
    at [p] is positive and within [r] of the distance to the origin. *)
Theorem star_sdf_far_field (r n x0 x1 : R) (rest : row) :
  0 <= r -> 2 < n ->
  r < norm (x0 :: x1 :: rest) * cos (PI / n) ^ 2 ->
  exists v,
    get_star_sdf r n n [x0 :: x1 :: rest] = Ok [v] /\
    norm (x0 :: x1 :: rest) - r <= v <= norm (x0 :: x1 :: rest).
Proof.
  intros Hr Hn Hfar. rewrite get_star_sdf_single by lra.
  destruct (star_sdf_row_far r (PI / n) x0 x1 rest Hr
              (half_angle_first_quadrant n Hn) Hfar) as (v & Hv & Hb).
  exists v. rewrite Hv. split; [reflexivity | exact Hb].
Qed.

Lemma star_sdf_far_field_witness :
  exists v,
    get_star_sdf 1 5 5 [[0; 10]] = Ok [v] /\
    norm [0; 10] - 1 <= v <= norm [0; 10].
Proof.
  apply star_sdf_far_field; try lra.
  rewrite norm_axis_y, Rabs_pos_eq by lra.
  pose proof cos_PI5_lower. nra.
Defined.

(** ** Scaling *)

Lemma mapM_map_bind {A B : Type} (f f' : A -> outcome B) (g : A -> A)
    (h : B -> B) (l : list A) :
  (forall a, f' (g a) = (b <- f a ;; Ok (h b))) ->
  mapM f' (map g l) = (bs <- mapM f l ;; Ok (map h bs)).
Proof.
  intros Hfg. induction l as [|a l IH]; cbn [map mapM bind].
  - reflexivity.
  - rewrite Hfg, IH. destruct (f a) as [b | e |]; cbn [bind]; try reflexivity.
    now destruct (mapM f l).
Qed.

Lemma clamp_scale (k a h : R) : 0 <= k -> clamp (k * a) 0 (k * h) = k * clamp a 0 h.
Proof.
  intros Hk. unfold clamp.
  replace 0 with (k * 0) at 1 by ring. rewrite RmaxRmult by exact Hk.
  unfold Rmin.
  destruct (Rle_dec (k * Rmax a 0) (k * h)) as [H1 | H1];
    destruct (Rle_dec (Rmax a 0) h) as [H2 | H2]; try reflexivity; nra.
Qed.

Lemma sign_scale (k v : R) : 0 < k -> sign (k * v) = sign v.
Proof.
  intros Hk. unfold sign.
  destruct (total_order_T (k * v) 0) as [[H1 | H1] | H1];
    destruct (total_order_T v 0) as [[H2 | H2] | H2]; try reflexivity; nra.
Qed.

Lemma sumsq_scale (k : R) (p : row) : sumsq (map (Rmult k) p) = k ^ 2 * sumsq p.
Proof.
  unfold sumsq. rewrite map_map, <- sum_map_scale.
  apply sum_map_ext. intros v. ring.
Qed.

Lemma norm_scale (k : R) (p : row) : 0 <= k -> norm (map (Rmult k) p) = k * norm p.
Proof.
  intros Hk. unfold norm. fold (sumsq (map (Rmult k) p)). fold (sumsq p).
  rewrite sumsq_scale, sqrt_mult_alt by apply pow2_ge_0.
  replace (k ^ 2) with (k * k) by ring. now rewrite sqrt_square.
Qed.

Lemma atan2_scale (k y x : R) : 0 < k -> atan2 (k * y) (k * x) = atan2 y x.
Proof.
  intros Hk. unfold atan2.
  assert (Hq : x <> 0 -> k * y / (k * x) = y / x) by (intros Hx; field; lra).
  destruct (total_order_T (k * x) 0) as [[H1 | H1] | H1];
    destruct (total_order_T x 0) as [[H2 | H2] | H2]; try nra.
  - rewrite Hq by lra.
    destruct (Rlt_dec (k * y) 0) as [H3 | H3];
      destruct (Rlt_dec y 0) as [H4 | H4]; try reflexivity; nra.
  - destruct (total_order_T (k * y) 0) as [[H3 | H3] | H3];
      destruct (total_order_T y 0) as [[H4 | H4] | H4]; try reflexivity; nra.
  - now rewrite Hq by lra.
Qed.

Lemma index_map (g : R -> R) (p : row) (i : nat) :
  index (map g p) i = (v <- index p i ;; Ok (g v)).
Proof.
  unfold index. rewrite nth_error_map. now destruct (nth_error p i).
Qed.

Lemma star_sdf_row_scale (k r an en : R) (p : row) :
  0 < k ->
  star_sdf_row (k * r) an en (map (Rmult k) p)
  = (v <- star_sdf_row r an en p ;; Ok (k * v)).
Proof.
  intros Hk. unfold star_sdf_row. rewrite !index_map.
  destruct (index p 1) as [x1 | e |]; cbn [bind]; try reflexivity.
  destruct (index p 0) as [x0 | e |]; cbn [bind fst snd]; try reflexivity.
  rewrite atan2_scale, norm_scale by lra.
  set (bn := remainder (atan2 x1 x0) (2 * an) - an).
  unfold tdiv.
  destruct (Req_dec_T (sin en) 0) as [Hs | Hs].
  - destruct (Req_dec_T (k * r * sin an) 0) as [H1 | H1];
      destruct (Req_dec_T (r * sin an) 0) as [H2 | H2]; reflexivity.
  - cbn [finite bind]. f_equal.
    replace (k * r * sin an / sin en) with (k * (r * sin an / sin en))
      by (field; exact Hs).
    set (hi := r * sin an / sin en).
    set (q0 := norm p * cos bn - r * cos an).
    set (q1 := norm p * Rabs (sin bn) - r * sin an).
    replace (k * norm p * cos bn - k * r * cos an) with (k * q0)
      by (unfold q0; ring).
    replace (k * norm p * Rabs (sin bn) - k * r * sin an) with (k * q1)
      by (unfold q1; ring).
    replace (- (k * q0 * cos en + k * q1 * sin en))
      with (k * - (q0 * cos en + q1 * sin en)) by ring.
    rewrite clamp_scale by lra.
    set (c := clamp (- (q0 * cos en + q1 * sin en)) 0 hi).
    replace (k * q0 + cos en * (k * c)) with (k * (q0 + cos en * c)) by ring.
    replace (k * q1 + sin en * (k * c)) with (k * (q1 + sin en * c)) by ring.
    change [k * (q0 + cos en * c); k * (q1 + sin en * c)]
      with (map (Rmult k) [q0 + cos en * c; q1 + sin en * c]).
    rewrite norm_scale, sign_scale by lra. ring.
Qed.

(** The star SDF is homogeneous: scaling the radius and every point by
    [k > 0] scales every value by [k], and changes nothing about which calls
    fail. *)
Theorem star_sdf_homogeneous (k r n m : R) (x : points) :
  0 < k ->
  get_star_sdf (k * r) n m (map (map (Rmult k)) x)
  = (vs <- get_star_sdf r n m x ;; Ok (map (Rmult k) vs)).
Proof.
  intros Hk. unfold get_star_sdf.
  destruct (py_div PI n) as [an | e |]; cbn [bind]; try reflexivity.
  destruct (py_div PI m) as [en | e |]; cbn [bind]; try reflexivity.
  apply mapM_map_bind. intros p. now apply star_sdf_row_scale.
Qed.

Lemma star_sdf_homogeneous_witness :
  get_star_sdf (3 * 1) 5 5 (map (map (Rmult 3)) [[10; 0]])
  = (vs <- get_star_sdf 1 5 5 [[10; 0]] ;; Ok (map (Rmult 3) vs)).
Proof. apply star_sdf_homogeneous. lra. Defined.

(** ** Reflection across the x-axis *)

Lemma remainder_opp_zero (a b : R) :
  0 < b -> remainder a b = 0 -> remainder (- a) b = 0.
Proof.
  unfold remainder. intros Hb Hrem.
  set (k := Int_part (a / b)) in *.
  assert (Hab : a / b = IZR k) by (apply Rmult_eq_reg_l with b; [field_simplify; lra | lra]).
  replace (- a / b) with (IZR (- k)) by (rewrite opp_IZR, <- Hab; field; lra).
  replace (Int_part (IZR (- k))) with (- k)%Z by (apply Int_part_spec; lra).
  rewrite opp_IZR. lra.
Qed.

Lemma remainder_opp (a b : R) :
  0 < b -> remainder a b <> 0 -> remainder (- a) b = b - remainder a b.
Proof.
  unfold remainder. intros Hb Hrem.
  destruct (base_Int_part (a / b)) as [Hle Hgt].
  set (k := Int_part (a / b)) in *.
  assert (Hab : a = b * (a / b)) by (field; lra).
  assert (Hlt : IZR k < a / b).
  { destruct Hle as [Hlt | Heq]; [exact Hlt|].
    exfalso. apply Hrem. rewrite Heq. lra. }
  assert (Hq : - a / b = - (a / b)) by (field; lra).
  replace (Int_part (- a / b)) with (- k - 1)%Z.
  - rewrite minus_IZR, opp_IZR. lra.
  - apply Int_part_spec. rewrite minus_IZR, opp_IZR, Hq. lra.
Qed.

Lemma atan2_opp (y x : R) : y <> 0 -> atan2 (- y) x = - atan2 y x.
Proof.
  intros Hy. unfold atan2.
  assert (Hq : - y / x = - (y / x)) by (unfold Rdiv; ring).
  destruct (total_order_T x 0) as [[Hx | Hx] | Hx].
  - rewrite Hq, atan_opp.
    destruct (Rlt_dec (- y) 0) as [H1 | H1];
      destruct (Rlt_dec y 0) as [H2 | H2]; lra.
  - destruct (total_order_T (- y) 0) as [[H1 | H1] | H1];
      destruct (total_order_T y 0) as [[H2 | H2] | H2]; lra.
  - now rewrite Hq, atan_opp.
Qed.

(** The fold of the angle forgets the side of the x-axis. *)
Lemma folded_angle_mirror (a an : R) :
  0 < an ->
  cos (remainder (- a) (2 * an) - an) = cos (remainder a (2 * an) - an) /\
  Rabs (sin (remainder (- a) (2 * an) - an)) = Rabs (sin (remainder a (2 * an) - an)).
Proof.
  intros Han.
  destruct (Req_dec_T (remainder a (2 * an)) 0) as [Hz | Hnz].
  - rewrite (remainder_opp_zero a (2 * an)) by lra. rewrite Hz. split; reflexivity.
  - rewrite (remainder_opp a (2 * an)) by lra.
    replace (2 * an - remainder a (2 * an) - an)
      with (- (remainder a (2 * an) - an)) by ring.
    rewrite cos_neg, sin_neg, Rabs_Ropp. split; reflexivity.
Qed.

Lemma norm_mirror (x0 x1 : R) (rest : row) :
  norm (x0 :: - x1 :: rest) = norm (x0 :: x1 :: rest).
Proof.
  unfold norm. cbn [map sum fold_right]. do 3 f_equal. ring.
Qed.

Lemma star_sdf_row_mirror (r an en x0 x1 : R) (rest : row) :
  0 < an ->
  star_sdf_row r an en (x0 :: - x1 :: rest) = star_sdf_row r an en (x0 :: x1 :: rest).
Proof.
  intros Han.
  destruct (Req_dec_T x1 0) as [-> | Hx1]; [now rewrite Ropp_0|].
  unfold star_sdf_row. cbn [index nth_error bind fst snd].
  rewrite norm_mirror, atan2_opp by exact Hx1.
  destruct (folded_angle_mirror (atan2 x1 x0) an Han) as [-> ->].
  reflexivity.
Qed.

(** The star SDF is symmetric about the x-axis: for [n > 0], a point and its
    mirror image get the same value, or fail alike. *)
Theorem star_sdf_mirror (r n m x0 x1 : R) (rest : row) :
  0 < n ->
  get_star_sdf r n m [x0 :: - x1 :: rest] = get_star_sdf r n m [x0 :: x1 :: rest].
Proof.
  intros Hn. unfold get_star_sdf.
  rewrite (py_div_nonzero PI n) by lra. cbn [bind].
  destruct (py_div PI m) as [en | e |]; cbn [bind mapM]; try reflexivity.
  rewrite star_sdf_row_mirror; [reflexivity|].
  apply Rdiv_lt_0_compat; [apply PI_RGT_0 | exact Hn].
Qed.

Lemma star_sdf_mirror_witness :
  get_star_sdf 1 5 3 [[2; - (7)]] = get_star_sdf 1 5 3 [[2; 7]].
Proof. apply star_sdf_mirror. lra. Defined.

(** * The fully connected network *)

Lemma neg_index_cons {A : Type} (a : A) (l : list A) (k : nat) :
  (1 <= k <= length l)%nat -> neg_index (a :: l) k = neg_index l k.
Proof.
  intros Hk. unfold neg_index. cbn [length].
  destruct (Nat.ltb_spec (S (length l)) k) as [H1 | H1]; [lia|].
  destruct (Nat.ltb_spec (length l) k) as [H2 | H2]; [lia|].
  replace (S (length l) - k)%nat with (S (length l - k)) by lia.
  reflexivity.
Qed.

Lemma init_layers_step (a b c : nat) (rest : list nat) :
  combine (removelast (a :: b :: c :: rest)) (tl (removelast (a :: b :: c :: rest)))
  = (a, b) :: combine (removelast (b :: c :: rest)) (tl (removelast (b :: c :: rest))).
Proof. reflexivity. Qed.

Lemma FullyConnected_init_chain (a b : nat) (rest : list nat) :
  FullyConnected_init (a :: b :: rest) = Ok (consecutive_layers (a :: b :: rest)).
Proof.
  revert a b. induction rest as [|c rest IH]; intros a b.
  - reflexivity.
  - specialize (IH b c). unfold FullyConnected_init in *.
    rewrite init_layers_step. cbn [flat_map app].
    rewrite (neg_index_cons a), (neg_index_cons a) by (cbn [length]; lia).
    destruct (neg_index (b :: c :: rest) 2) as [size_in | e |];
      cbn [bind] in *; try discriminate.
    destruct (neg_index (b :: c :: rest) 1) as [size_out | e |];
      cbn [bind] in *; try discriminate.
    injection IH as IH. cbn [consecutive_layers]. rewrite <- IH. reflexivity.
Qed.

(** [FullyConnected.__init__] needs two sizes: fewer raise an index error
    at [fc_sizes[-2]].  With two sizes or more it builds the whole chain: one
    linear layer for every pair of neighbouring sizes, in order, and an
    activation after each of them but the last. *)
Theorem FullyConnected_init_structure (fc_sizes : list nat) :
  ((length fc_sizes < 2)%nat -> FullyConnected_init fc_sizes = Raise IndexError) /\
  ((2 <= length fc_sizes)%nat ->
   FullyConnected_init fc_sizes = Ok (consecutive_layers fc_sizes)).
Proof.
  split; intros Hlen.
  - destruct fc_sizes as [|a [|b rest]]; cbn [length] in Hlen; try lia; reflexivity.
  - destruct fc_sizes as [|a [|b rest]]; cbn [length] in Hlen; try lia.
    apply FullyConnected_init_chain.
Qed.

Lemma FullyConnected_init_structure_witness :
  FullyConnected_init [3%nat] = Raise IndexError /\
  FullyConnected_init [3; 64; 64; 1]%nat
  = Ok [LinearSpec 3 64; ActSpec; LinearSpec 64 64; ActSpec; LinearSpec 64 1].
Proof.
  split.
  - apply (FullyConnected_init_structure [3%nat]). simpl. lia.
  - apply (FullyConnected_init_structure [3; 64; 64; 1]%nat). simpl. lia.
Defined.

Lemma mapM_ok {A B : Type} (f : A -> outcome B) (P : B -> Prop) (l : list A) :
  Forall (fun a => exists b, f a = Ok b /\ P b) l ->
  exists bs, mapM f l = Ok bs /\ length bs = length l /\ Forall P bs.
Proof.
  induction 1 as [|a l (b & Hb & HP) _ (bs & Hbs & Hlen & Hall)]; cbn [mapM].
  - exists []. repeat split. constructor.
  - exists (b :: bs). rewrite Hb, Hbs. cbn [bind length].
    repeat split; [now rewrite Hlen | now constructor].
Qed.

Lemma mapM_ok_inv {A B : Type} (f : A -> outcome B) (l : list A) (bs : list B) :
  mapM f l = Ok bs -> Forall2 (fun a b => f a = Ok b) l bs.
Proof.
  revert bs. induction l as [|a l IH]; intros bs; cbn [mapM].
  - intros H. injection H as <-. constructor.
  - destruct (f a) as [b | e |] eqn:Hfa; cbn [bind]; try discriminate.
    destruct (mapM f l) as [bs' | e |]; cbn [bind]; try discriminate.
    intros H. injection H as <-. constructor; [exact Hfa | now apply IH].
Qed.

Lemma linear_forward_shape (size_in size_out : nat) (w : list (list R))
    (b : list R) (p : row) :
  length w = size_out -> length b = size_out -> length p = size_in ->
  exists q, linear_forward size_in w b p = Ok q /\ length q = size_out.
Proof.
  intros Hw Hb Hp. unfold linear_forward.
  rewrite Hp, Nat.eqb_refl. eexists. split; [reflexivity|].
  rewrite length_map, length_combine. lia.
Qed.

Lemma module_forward_shape (sp : layer_spec) (md : module) (x : points)
    (width : nat) :
  instantiates sp md ->
  Forall (fun p => length p = width) x ->
  match sp with LinearSpec size_in _ => size_in = width | ActSpec => True end ->
  exists y,
    module_forward md x = Ok y /\ length y = length x /\
    Forall (fun q => length q =
                     match sp with LinearSpec _ size_out => size_out | ActSpec => width end) y.
Proof.
  intros Hinst Hx Hwidth.
  destruct sp as [size_in size_out|], md as [in_f out_f w b | g];
    cbn [instantiates] in Hinst; try contradiction; cbn [module_forward].
  - destruct Hinst as (-> & -> & Hw & _ & Hb). subst width.
    apply mapM_ok. revert Hx. apply Forall_impl. intros p Hp.
    now apply linear_forward_shape.
  - exists (map (map g) x). split; [reflexivity|]. split; [apply length_map|].
    apply Forall_map. revert Hx. apply Forall_impl. intros p Hp.
    now rewrite length_map.
Qed.

Lemma consecutive_layers_step (a b c : nat) (rest : list nat) :
  consecutive_layers (a :: b :: c :: rest)
  = LinearSpec a b :: ActSpec :: consecutive_layers (b :: c :: rest).
Proof. reflexivity. Qed.

Lemma forward_chain_shape (a b : nat) (rest : list nat) (model : list module)
    (x : points) :
  Forall2 instantiates (consecutive_layers (a :: b :: rest)) model ->
  Forall (fun p => length p = a) x ->
  exists y,
    forward model x = Ok y /\ length y = length x /\
    Forall (fun q => length q = last (a :: b :: rest) 0%nat) y.
Proof.
  revert a b model x. induction rest as [|c rest IH]; intros a b model x Hm Hx.
  - cbn [consecutive_layers] in Hm.
    inversion Hm as [|sp md ? ? Hlin Hnil]; subst. inversion Hnil; subst.
    destruct (module_forward_shape _ _ x a Hlin Hx eq_refl) as (y & Hy & Hlen & Hw).
    exists y. cbn [forward]. rewrite Hy. cbn [bind last]. auto.
  - rewrite consecutive_layers_step in Hm.
    inversion Hm as [|sp1 md1 ? ? Hlin Hrest1]; subst.
    inversion Hrest1 as [|sp2 md2 ? model' Hact Hrest2]; subst.
    destruct (module_forward_shape _ _ x a Hlin Hx eq_refl) as (y1 & Hy1 & Hlen1 & Hw1).
    destruct (module_forward_shape _ _ y1 b Hact Hw1 I) as (y2 & Hy2 & Hlen2 & Hw2).
    destruct (IH b c model' y2 Hrest2 Hw2) as (y & Hy & Hlen & Hw).
    exists y. cbn [forward]. rewrite Hy1. cbn [bind]. rewrite Hy2. cbn [bind].
    split; [exact Hy|]. split; [lia|]. exact Hw.
Qed.

(** Shapes through the network: a model built by [__init__] from
    [fc_sizes], whatever its parameters, maps a batch of rows of width
    [fc_sizes[0]] to a batch of as many rows of width [fc_sizes[-1]], and
    raises nothing. *)
Theorem FullyConnected_forward_shape (fc_sizes : list nat)
    (layers : list layer_spec) (model : list module) (x : points) :
  FullyConnected_init fc_sizes = Ok layers ->
  Forall2 instantiates layers model ->
  Forall (fun p => length p = hd 0%nat fc_sizes) x ->
  exists y,
    forward model x = Ok y /\ length y = length x /\
    Forall (fun q => length q = last fc_sizes 0%nat) y.
Proof.
  intros Hinit Hm Hx.
  destruct fc_sizes as [|a [|b rest]]; try discriminate Hinit.
  rewrite FullyConnected_init_chain in Hinit. injection Hinit as <-.
  exact (forward_chain_shape a b rest model x Hm Hx).
Qed.

Lemma FullyConnected_forward_shape_witness :
  exists y,
    forward [Linear 2 1 [[1; 1]] [0]; SineActivation; Linear 1 1 [[2]] [1]] [[3; 4]]
    = Ok y /\ length y = 1%nat /\ Forall (fun q => length q = 1%nat) y.
Proof.
  apply (FullyConnected_forward_shape [2; 1; 1]%nat
           [LinearSpec 2 1; ActSpec; LinearSpec 1 1]).
  - reflexivity.
  - repeat constructor.
  - repeat constructor.
Defined.

Lemma mapM_raise {A B : Type} (f : A -> outcome B) (e : py_exn) (l : list A) :
  Forall (fun a => (exists b, f a = Ok b) \/ f a = Raise e) l ->
  Exists (fun a => f a = Raise e) l ->
  mapM f l = Raise e.
Proof.
  intros Hall Hex. induction Hall as [|a l Ha _ IH]; [inversion Hex|].
  cbn [mapM]. destruct Ha as [(b & Hb) | Hr].
  - rewrite Hb. cbn [bind].
    inversion Hex as [? ? Hbad | ? ? Hlater]; subst.
    + rewrite Hb in Hbad. discriminate.
    + now rewrite (IH Hlater).
  - now rewrite Hr.
Qed.

(** A row of another width than [fc_sizes[0]] is refused by the first linear
    layer: the forward pass raises, whatever the parameters. *)
Theorem FullyConnected_forward_wrong_width (fc_sizes : list nat)
    (layers : list layer_spec) (model : list module) (x : points) :
  FullyConnected_init fc_sizes = Ok layers ->
  Forall2 instantiates layers model ->
  Exists (fun p => length p <> hd 0%nat fc_sizes) x ->
  forward model x = Raise RuntimeError.
Proof.
  intros Hinit Hm Hx.
  destruct fc_sizes as [|a [|b rest]]; try discriminate Hinit.
  rewrite FullyConnected_init_chain in Hinit. injection Hinit as <-.
  assert (Hfirst : exists later, consecutive_layers (a :: b :: rest)
                                 = LinearSpec a b :: later).
  { destruct rest; eexists; reflexivity. }
  destruct Hfirst as (later & Hfirst).
  assert (Hm' : Forall2 instantiates (LinearSpec a b :: later) model)
    by (rewrite <- Hfirst; exact Hm).
  inversion Hm' as [|sp md ? model' Hlin _]; subst.
  destruct md as [in_f out_f w bias | g]; cbn [instantiates] in Hlin;
    [|contradiction].
  destruct Hlin as (-> & _). cbn [forward module_forward hd] in *.
  rewrite (mapM_raise _ RuntimeError); [reflexivity | |].
  - apply Forall_forall. intros p _. unfold linear_forward.
    destruct (length p =? a)%nat; [left; eexists; reflexivity | now right].
  - revert Hx. apply Exists_impl. intros p Hp. unfold linear_forward.
    now destruct (Nat.eqb_spec (length p) a).
Qed.

Lemma FullyConnected_forward_wrong_width_witness :
  forward [Linear 2 1 [[1; 1]] [0]; SineActivation; Linear 1 1 [[2]] [1]]
    [[3; 4; 5]]
  = Raise RuntimeError.
Proof.
  apply (FullyConnected_forward_wrong_width [2; 1; 1]%nat
           [LinearSpec 2 1; ActSpec; LinearSpec 1 1]).
  - reflexivity.
  - repeat constructor.
  - apply Exists_cons_hd. simpl. lia.
Defined.

(** ** Bounded outputs *)

Lemma forward_app (m1 m2 : list module) (x : points) :
  forward (m1 ++ m2) x = (y <- forward m1 x ;; forward m2 y).
Proof.
  revert x. induction m1 as [|md m1 IH]; intros x; cbn [app forward bind].
  - reflexivity.
  - destruct (module_forward md x) as [y | e |]; cbn [bind]; auto.
Qed.

Lemma dot_bound (x w : row) :
  Forall (fun v => Rabs v <= 1) x -> Rabs (dot x w) <= sum (map Rabs w).
Proof.
  unfold dot. intros Hx. revert w.
  induction Hx as [|v x Hv _ IH]; intros [|u w];
    cbn [combine map sum fold_right fst snd].
  - rewrite Rabs_R0. lra.
  - rewrite Rabs_R0. fold (sum (map Rabs w)).
    pose proof (Rabs_pos u).
    assert (0 <= sum (map Rabs w)).
    { clear. induction w as [|a w IHw]; cbn [map sum fold_right]; [lra|].
      fold (sum (map Rabs w)). pose proof (Rabs_pos a). lra. }
    lra.
  - rewrite Rabs_R0. lra.
  - fold (sum (map (fun ab => fst ab * snd ab) (combine x w))).
    fold (sum (map Rabs w)). specialize (IH w).
    pose proof (Rabs_triang (v * u) (sum (map (fun ab => fst ab * snd ab) (combine x w)))).
    rewrite Rabs_mult in *. pose proof (Rabs_pos u). pose proof (Rabs_pos v). nra.
Qed.

Lemma consecutive_layers_end (a b c : nat) (rest : list nat) :
  exists front size_in size_out,
    consecutive_layers (a :: b :: c :: rest)
    = front ++ [ActSpec; LinearSpec size_in size_out].
Proof.
  revert a b c. induction rest as [|d rest IH]; intros a b c.
  - exists [LinearSpec a b], b, c. reflexivity.
  - destruct (IH b c d) as (front & size_in & size_out & Heq).
    exists (LinearSpec a b :: ActSpec :: front), size_in, size_out.
    rewrite consecutive_layers_step, Heq. reflexivity.
Qed.

Lemma linear_forward_bounded (in_f : nat) (w : list (list R)) (b : list R)
    (h q : row) :
  Forall (fun v => Rabs v <= 1) h ->
  linear_forward in_f w b h = Ok q ->
  Forall2 (fun v wb => Rabs v <= sum (map Rabs (fst wb)) + Rabs (snd wb))
    q (combine w b).
Proof.
  intros Hh. unfold linear_forward.
  destruct (length h =? in_f)%nat; [|discriminate].
  intros Heq. injection Heq as <-.
  induction (combine w b) as [|wb l IH]; cbn [map]; constructor; [|exact IH].
  pose proof (dot_bound h (fst wb) Hh).
  pose proof (Rabs_triang (dot h (fst wb)) (snd wb)). lra.
Qed.

(** With sine activations and at least one hidden layer, the output of the
    network is bounded whatever the input: each output is at most, in
    absolute value, the absolute bias plus the absolute weights of its row
    in the last linear layer. *)
Theorem FullyConnected_output_bounded (fc_sizes : list nat)
    (layers : list layer_spec) (model : list module) (x y : points) :
  (3 <= length fc_sizes)%nat ->
  FullyConnected_init fc_sizes = Ok layers ->
  Forall2 instantiates layers model ->
  Forall (fun md => match md with Activation g => g = sin | _ => True end) model ->
  forward model x = Ok y ->
  exists front in_f out_f w b,
    model = front ++ [Linear in_f out_f w b] /\
    Forall (fun q =>
              Forall2 (fun v wb => Rabs v <= sum (map Rabs (fst wb)) + Rabs (snd wb))
                q (combine w b)) y.
Proof.
  intros Hlen Hinit Hm Hsin Hfw.
  destruct fc_sizes as [|a [|b [|c rest]]]; cbn [length] in Hlen; try lia.
  rewrite FullyConnected_init_chain in Hinit. injection Hinit as <-.
  destruct (consecutive_layers_end a b c rest) as (front & s_in & s_out & Hend).
  assert (Hm' : Forall2 instantiates (front ++ [ActSpec; LinearSpec s_in s_out]) model)
    by (rewrite <- Hend; exact Hm).
  apply Forall2_app_inv_l in Hm'. destruct Hm' as (mfront & mend & _ & Hmend & ->).
  inversion Hmend as [|sp1 md1 ? ? Hact Hrest]; subst.
  inversion Hrest as [|sp2 md2 ? ? Hlin Hnil]; subst. inversion Hnil; subst.
  destruct md1 as [? ? ? ? | g]; cbn [instantiates] in Hact; [contradiction|].
  destruct md2 as [in_f out_f w bias | ?]; cbn [instantiates] in Hlin;
    [|contradiction].
  apply Forall_app in Hsin. destruct Hsin as [_ Hsin].
  inversion Hsin as [|? ? Hg _]; subst.
  exists (mfront ++ [Activation sin]), in_f, out_f, w, bias.
  split; [now rewrite <- app_assoc|].
  rewrite forward_app in Hfw.
  destruct (forward mfront x) as [h0 | e |]; cbn [bind] in Hfw; try discriminate.
  cbn [forward module_forward bind] in Hfw.
  destruct (mapM (linear_forward in_f w bias) (map (map sin) h0)) as [y' | e |] eqn:Hy;
    cbn [bind] in Hfw; try discriminate.
  injection Hfw as <-.
  apply mapM_ok_inv in Hy.
  assert (Hh : Forall (Forall (fun v => Rabs v <= 1)) (map (map sin) h0)).
  { apply Forall_map, Forall_forall. intros p _.
    apply Forall_map, Forall_forall. intros v _.
    apply Rabs_le. pose proof (SIN_bound v). lra. }
  clear - Hy Hh. induction Hy as [|h q hs qs Hq _ IH]; constructor.
  - inversion Hh; subst. now apply (linear_forward_bounded in_f w bias h).
  - inversion Hh; subst. now apply IH.
Qed.

Lemma FullyConnected_output_bounded_witness :
  exists front in_f out_f w b,
    [Linear 2 1 [[1; 1]] [0]; SineActivation; Linear 1 1 [[2]] [1]]
    = front ++ [Linear in_f out_f w b] /\
    Forall (fun q =>
              Forall2 (fun v wb => Rabs v <= sum (map Rabs (fst wb)) + Rabs (snd wb))
                q (combine w b))
      [[sin (dot [3; 4] [1; 1] + 0) * 2 + 0 + 1]].
Proof.
  apply (FullyConnected_output_bounded [2; 1; 1]%nat
           [LinearSpec 2 1; ActSpec; LinearSpec 1 1] _ [[3; 4]]).
  - simpl. lia.
  - reflexivity.
  - repeat constructor.
  - repeat constructor.
  - reflexivity.
Defined.

(** * The sampling grid *)

Lemma linspace_length (a b : R) (n : nat) : length (linspace a b n) = n.
Proof.
  unfold linspace. destruct n as [|[|n]]; [reflexivity | reflexivity |].
  now rewrite length_map, length_seq.
Qed.

Lemma linspace_In (a b v : R) (n : nat) :
  In v (linspace a b n) <->
  (n = 1%nat /\ v = a) \/
  ((2 <= n)%nat /\ exists i, (i < n)%nat /\ v = a + INR i * ((b - a) / (INR n - 1))).
Proof.
  unfold linspace. destruct n as [|[|n]].
  - cbn [seq map In]. split; [contradiction|]. intros [[H _] | [H _]]; lia.
  - cbn [In]. split.
    + intros [<- | []]. now left.
    + intros [[_ ->] | [H _]]; [now left | lia].
  - rewrite in_map_iff. split.
    + intros (i & <- & Hi). apply in_seq in Hi. right.
      split; [lia|]. exists i. split; [lia | reflexivity].
    + intros [[H _] | (_ & i & Hi & ->)]; [lia|].
      exists i. split; [reflexivity | apply in_seq; lia].
Qed.

Lemma linspace_step_pos (n : nat) : (2 <= n)%nat -> 0 < INR n - 1.
Proof. intros Hn. apply le_INR in Hn. simpl in Hn. lra. Qed.

Lemma linspace_bounds (a b : R) (n : nat) :
  a <= b -> Forall (fun v => a <= v <= b) (linspace a b n).
Proof.
  intros Hab. apply Forall_forall. intros v Hv.
  apply linspace_In in Hv. destruct Hv as [[_ ->] | (Hn & i & Hi & ->)]; [lra|].
  pose proof (linspace_step_pos n Hn) as Hs.
  assert (Hi0 : 0 <= INR i) by apply pos_INR.
  assert (Hi1 : INR i <= INR n - 1).
  { assert (H : (i <= n - 1)%nat) by lia. apply le_INR in H.
    rewrite minus_INR in H by lia. simpl in H. lra. }
  assert (Hfrac : 0 <= INR i / (INR n - 1) <= 1).
  { split; [unfold Rdiv; apply Rmult_le_pos;
             [lra | left; apply Rinv_0_lt_compat; lra]|].
    apply Rmult_le_reg_r with (INR n - 1); [lra|].
    unfold Rdiv. rewrite Rmult_assoc, Rinv_l by lra. lra. }
  replace (INR i * ((b - a) / (INR n - 1)))
    with ((b - a) * (INR i / (INR n - 1))) by (field; lra).
  nra.
Qed.

(** A symmetric range is closed under negation. *)
Lemma linspace_symmetric (m v : R) (n : nat) :
  In v (linspace (- m) m n) -> (2 <= n)%nat -> In (- v) (linspace (- m) m n).
Proof.
  intros Hv Hn. apply linspace_In in Hv. apply linspace_In. right.
  split; [exact Hn|].
  destruct Hv as [[H1 _] | (_ & i & Hi & ->)]; [lia|].
  pose proof (linspace_step_pos n Hn) as Hs.
  exists (n - 1 - i)%nat. split; [lia|].
  rewrite !minus_INR by lia. simpl. field. lra.
Qed.

Lemma linspace_ends (a b : R) (n : nat) :
  (2 <= n)%nat -> In a (linspace a b n) /\ In b (linspace a b n).
Proof.
  intros Hn. pose proof (linspace_step_pos n Hn) as Hs.
  split; apply linspace_In; right; (split; [exact Hn|]).
  - exists 0%nat. split; [lia|]. simpl. ring.
  - exists (n - 1)%nat. split; [lia|].
    rewrite minus_INR by lia. simpl. field. lra.
Qed.

Lemma combine_app_same {A B : Type} (l1 l2 : list A) (k1 k2 : list B) :
  length l1 = length k1 ->
  combine (l1 ++ l2) (k1 ++ k2) = combine l1 k1 ++ combine l2 k2.
Proof.
  revert k1. induction l1 as [|a l1 IH]; intros [|b k1] Hlen;
    cbn [length] in Hlen; try discriminate; [reflexivity|].
  cbn [app combine]. f_equal. apply IH. lia.
Qed.

Lemma combine_const {A B : Type} (l : list A) (b : B) :
  combine l (map (fun _ => b) l) = map (fun a => (a, b)) l.
Proof. induction l as [|a l IH]; cbn [map combine]; [reflexivity | now rewrite IH]. Qed.

Lemma meshgrid_flatten (px py : list R) :
  combine (concat (fst (meshgrid_xy px py))) (concat (snd (meshgrid_xy px py)))
  = flat_map (fun b => map (fun a => (a, b)) px) py.
Proof.
  unfold meshgrid_xy. cbn [fst snd].
  induction py as [|b py IH]; cbn [map concat flat_map]; [reflexivity|].
  rewrite combine_app_same by now rewrite length_map.
  now rewrite combine_const, IH.
Qed.

Lemma create_grid_flat_map (res : nat) :
  fst (fst (create_grid res))
  = flat_map (fun b => map (fun a => [a; b]) (linspace (-1) 1 res))
      (linspace (-1) 1 res).
Proof.
  unfold create_grid. cbn [fst]. rewrite meshgrid_flatten.
  induction (linspace (-1) 1 res) as [|b py IH] at 2 4; cbn [flat_map];
    [reflexivity|].
  rewrite map_app, IH, map_map. reflexivity.
Qed.

Lemma create_grid_length (res : nat) :
  length (fst (fst (create_grid res))) = (res * res)%nat.
Proof.
  rewrite create_grid_flat_map.
  pose proof (linspace_length (-1) 1 res) as Hlen.
  set (p := linspace (-1) 1 res) in *.
  rewrite <- Hlen at 1.
  induction p as [|b py IH] at 2 3; cbn [flat_map length]; [reflexivity|].
  rewrite length_app, length_map, IH, Hlen. reflexivity.
Qed.

(** [create_grid(res)] lists the Cartesian square of the [res] sample
    coordinates row by row: the first coordinate runs fastest, the second
    is constant over each run of [res] points. *)
Theorem create_grid_enumeration (res : nat) :
  fst (fst (create_grid res))
  = flat_map (fun b => map (fun a => [a; b]) (linspace (-1) 1 res))
      (linspace (-1) 1 res) /\
  length (fst (fst (create_grid res))) = (res * res)%nat.
Proof. split; [apply create_grid_flat_map | apply create_grid_length]. Qed.

Lemma create_grid_In (res : nat) (p : row) :
  In p (fst (fst (create_grid res))) <->
  exists a b, p = [a; b] /\ In a (linspace (-1) 1 res) /\ In b (linspace (-1) 1 res).
Proof.
  rewrite create_grid_flat_map, in_flat_map. split.
  - intros (b & Hb & Hp). apply in_map_iff in Hp. destruct Hp as (a & <- & Ha).
    now exists a, b.
  - intros (a & b & -> & Ha & Hb). exists b. split; [exact Hb|].
    apply in_map_iff. now exists a.
Qed.

Lemma create_grid_bounds (res : nat) :
  Forall (fun p => exists a b, p = [a; b] /\ -1 <= a <= 1 /\ -1 <= b <= 1)
    (fst (fst (create_grid res))).
Proof.
  apply Forall_forall. intros p Hp.
  apply create_grid_In in Hp. destruct Hp as (a & b & -> & Ha & Hb).
  assert (Hle : -1 <= 1) by lra.
  pose proof (linspace_bounds (-1) 1 res Hle) as Hall.
  rewrite Forall_forall in Hall.
  exists a, b. split; [reflexivity|]. split; now apply Hall.
Qed.

Lemma create_grid_corner (res : nat) :
  (2 <= res)%nat -> In [1; 1] (fst (fst (create_grid res))).
Proof.
  intros Hres. destruct (linspace_ends (-1) 1 res Hres) as [_ Hhi].
  apply create_grid_In. eexists. eexists. eauto.
Qed.

(** Every grid point has two coordinates, both in [[-1, 1]]. *)
Theorem create_grid_in_square (res : nat) :
  Forall (fun p => exists a b, p = [a; b] /\ -1 <= a <= 1 /\ -1 <= b <= 1)
    (fst (fst (create_grid res))).
Proof. apply create_grid_bounds. Qed.

(** For [res >= 2] the grid has the four corners of the square, and with a
    point [(a, b)] it has [(b, a)], [(-a, b)] and [(a, -b)]. *)
Theorem create_grid_symmetric (res : nat) :
  (2 <= res)%nat ->
  (In [-1; -1] (fst (fst (create_grid res))) /\
   In [1; -1] (fst (fst (create_grid res))) /\
   In [-1; 1] (fst (fst (create_grid res))) /\
   In [1; 1] (fst (fst (create_grid res)))) /\
  (forall a b, In [a; b] (fst (fst (create_grid res))) ->
               In [b; a] (fst (fst (create_grid res))) /\
               In [- a; b] (fst (fst (create_grid res))) /\
               In [a; - b] (fst (fst (create_grid res)))).
Proof.
  intros Hres.
  destruct (linspace_ends (-1) 1 res Hres) as [Hlo Hhi].
  split.
  - repeat split; apply create_grid_In; eexists; eexists; eauto.
  - intros a b Hab. apply create_grid_In in Hab.
    destruct Hab as (a' & b' & Heq & Ha & Hb). injection Heq as -> ->.
    assert (Hsym : forall v, In v (linspace (-1) 1 res) -> In (- v) (linspace (-1) 1 res)).
    { intros v Hv. replace (-1) with (- (1)) in * by lra.
      now apply linspace_symmetric. }
    repeat split; apply create_grid_In; eexists; eexists; eauto.
Qed.

Lemma create_grid_symmetric_witness :
  In [1; 1] (fst (fst (create_grid 3))) /\
  In [- (-1); 1] (fst (fst (create_grid 3))).
Proof.
  destruct (create_grid_symmetric 3) as [(_ & _ & Hc & Hd) Hsym]; [lia|].
  split; [exact Hd|]. now apply (Hsym (-1) 1).
Defined.

(** * The contour plots *)

Lemma rows_of_concat (ncols nrows : nat) (v : list R) :
  length v = (nrows * ncols)%nat -> concat (rows_of ncols nrows v) = v.
Proof.
  revert v. induction nrows as [|k IH]; intros v Hlen; cbn [rows_of concat].
  - destruct v; [reflexivity | discriminate].
  - rewrite IH; [apply firstn_skipn|].
    rewrite length_skipn, Hlen. cbn [Nat.mul]. lia.
Qed.

Lemma rows_of_shape (ncols nrows : nat) (v : list R) :
  length v = (nrows * ncols)%nat ->
  length (rows_of ncols nrows v) = nrows /\
  Forall (fun row => length row = ncols) (rows_of ncols nrows v).
Proof.
  revert v. induction nrows as [|k IH]; intros v Hlen; cbn [rows_of length].
  - split; [reflexivity | constructor].
  - destruct (IH (skipn ncols v)) as [Hl Hall].
    { rewrite length_skipn, Hlen. cbn [Nat.mul]. lia. }
    split; [now rewrite Hl|]. constructor; [|exact Hall].
    rewrite length_firstn, Hlen. cbn [Nat.mul]. lia.
Qed.

Lemma fold_min_spec (vs : list R) (v : R) :
  fold_left Rmin vs v <= v /\
  Forall (fun a => fold_left Rmin vs v <= a) vs /\
  In (fold_left Rmin vs v) (v :: vs).
Proof.
  revert v. induction vs as [|a vs IH]; intros v; cbn [fold_left].
  - split; [lra|]. split; [constructor | now left].
  - destruct (IH (Rmin v a)) as (Hle & Hall & Hin).
    pose proof (Rmin_l v a). pose proof (Rmin_r v a).
    split; [lra|]. split.
    + constructor; [lra | exact Hall].
    + destruct Hin as [Heq | Hin]; [|now right; right].
      rewrite <- Heq. unfold Rmin. destruct (Rle_dec v a); [now left | now right; left].
Qed.

Lemma fold_max_spec (vs : list R) (v : R) :
  v <= fold_left Rmax vs v /\
  Forall (fun a => a <= fold_left Rmax vs v) vs /\
  In (fold_left Rmax vs v) (v :: vs).
Proof.
  revert v. induction vs as [|a vs IH]; intros v; cbn [fold_left].
  - split; [lra|]. split; [constructor | now left].
  - destruct (IH (Rmax v a)) as (Hle & Hall & Hin).
    pose proof (Rmax_l v a). pose proof (Rmax_r v a).
    split; [lra|]. split.
    + constructor; [lra | exact Hall].
    + destruct Hin as [Heq | Hin]; [|now right; right].
      rewrite <- Heq. unfold Rmax. destruct (Rle_dec v a); [now right; left | now left].
Qed.

Lemma tensor_min_spec (z : list (list R)) (lo : R) :
  tensor_min z = Ok lo ->
  In lo (concat z) /\ Forall (fun v => lo <= v) (concat z).
Proof.
  unfold tensor_min. destruct (concat z) as [|v vs]; [discriminate|].
  intros H. injection H as <-.
  destruct (fold_min_spec vs v) as (Hle & Hall & Hin).
  split; [exact Hin | now constructor].
Qed.

Lemma tensor_max_spec (z : list (list R)) (hi : R) :
  tensor_max z = Ok hi ->
  In hi (concat z) /\ Forall (fun v => v <= hi) (concat z).
Proof.
  unfold tensor_max. destruct (concat z) as [|v vs]; [discriminate|].
  intros H. injection H as <-.
  destruct (fold_max_spec vs v) as (Hle & Hall & Hin).
  split; [exact Hin | now constructor].
Qed.

(** What a contour holds when it is built. *)
Lemma contour_of_spec (x y : list (list R)) (values : scalars) (res lines : nat)
    (call : contour_call) :
  contour_of x y values res lines = Ok call ->
  length values = (res * res)%nat /\
  c_x call = x /\ c_y call = y /\
  c_z call = rows_of res res values /\
  exists m,
    c_levels call = linspace (- m) m lines /\
    Forall (fun v => - m <= v <= m) values /\
    Exists (fun v => Rabs v = m) values.
Proof.
  unfold contour_of, view.
  destruct (Nat.eqb_spec (length values) (res * res)) as [Hlen | Hlen];
    [|discriminate].
  cbn [bind].
  destruct (tensor_min (rows_of res res values)) as [lo | e |] eqn:Hlo;
    cbn [bind]; try discriminate.
  destruct (tensor_max (rows_of res res values)) as [hi | e |] eqn:Hhi;
    cbn [bind]; try discriminate.
  intros H. injection H as <-. cbn [c_x c_y c_z c_levels].
  apply tensor_min_spec in Hlo. apply tensor_max_spec in Hhi.
  rewrite rows_of_concat in Hlo, Hhi by exact Hlen.
  destruct Hlo as [Hlo_in Hlo_all], Hhi as [Hhi_in Hhi_all].
  repeat split; try assumption.
  exists (Rmax (Rabs lo) (Rabs hi)). split; [reflexivity|]. split.
  - rewrite Forall_forall in *. intros v Hv.
    specialize (Hlo_all v Hv). specialize (Hhi_all v Hv).
    pose proof (Rmax_l (Rabs lo) (Rabs hi)). pose proof (Rmax_r (Rabs lo) (Rabs hi)).
    pose proof (Rle_abs hi). pose proof (Rle_abs (- lo)) as Hl.
    rewrite Rabs_Ropp in Hl. lra.
  - apply Exists_exists. unfold Rmax.
    destruct (Rle_dec (Rabs lo) (Rabs hi)); eauto.
Qed.

(** When [plot_sdf] reaches the plot, the field came back with [res * res]
    values, and the matrix handed to [contourf] is these values cut into
    [res] rows of [res]: row [i], column [j] is the value at the grid point
    of index [i * res + j]. *)
Theorem plot_sdf_field (net : points -> outcome scalars) (res lines : nat)
    (call : contour_call) :
  plot_sdf net res lines = Ok call ->
  exists values,
    net (fst (fst (create_grid res))) = Ok values /\
    concat (c_z call) = values /\
    length (c_z call) = res /\
    Forall (fun row => length row = res) (c_z call).
Proof.
  unfold plot_sdf.
  destruct (create_grid res) as [[grid x] y]. cbn [fst].
  destruct (net grid) as [values | e |]; cbn [bind]; try discriminate.
  intros Hc. apply contour_of_spec in Hc.
  destruct Hc as (Hlen & _ & _ & Hz & _).
  exists values. rewrite Hz. split; [reflexivity|].
  split; [now apply rows_of_concat | now apply rows_of_shape].
Qed.

(** The contour levels of [plot_sdf] run from [-m] to [m], where [m] is the
    largest absolute value of the field on the grid: every plotted value
    lies within the levels, and one of them reaches [m] or [-m]. *)
Theorem plot_sdf_levels_cover (net : points -> outcome scalars) (res lines : nat)
    (call : contour_call) :
  plot_sdf net res lines = Ok call ->
  exists m,
    c_levels call = linspace (- m) m lines /\
    Forall (fun v => - m <= v <= m) (concat (c_z call)) /\
    Exists (fun v => Rabs v = m) (concat (c_z call)).
Proof.
  unfold plot_sdf.
  destruct (create_grid res) as [[grid x] y].
  destruct (net grid) as [values | e |]; cbn [bind]; try discriminate.
  intros Hc. apply contour_of_spec in Hc.
  destruct Hc as (Hlen & _ & _ & Hz & m & Hlev & Hall & Hex).
  exists m. rewrite Hz, rows_of_concat by exact Hlen. auto.
Qed.

(** [plot_sdf] never reaches the plot with an empty grid ([res = 0]), and
    raises when the field returns another number of values than the grid
    has points. *)
Theorem plot_sdf_failures (net : points -> outcome scalars) (res lines : nat) :
  (res = 0%nat -> forall call, plot_sdf net res lines <> Ok call) /\
  (forall values,
      net (fst (fst (create_grid res))) = Ok values ->
      length values <> (res * res)%nat ->
      plot_sdf net res lines = Raise RuntimeError).
Proof.
  split.
  - intros -> call Hc. unfold plot_sdf in Hc. cbn in Hc.
    destruct (net []) as [values | e |]; cbn [bind] in Hc; try discriminate.
    unfold contour_of, view in Hc.
    destruct values as [|v values]; cbn in Hc; discriminate.
  - intros values Hnet Hlen. unfold plot_sdf.
    destruct (create_grid res) as [[grid x] y]. cbn [fst] in Hnet.
    rewrite Hnet. cbn [bind]. unfold contour_of, view.
    now destruct (Nat.eqb_spec (length values) (res * res)).
Qed.

Lemma contour_of_ok (x y : list (list R)) (values : scalars) (res lines : nat) :
  (1 <= res)%nat -> length values = (res * res)%nat ->
  exists call, contour_of x y values res lines = Ok call.
Proof.
  intros Hres Hlen. unfold contour_of, view.
  rewrite Hlen, Nat.eqb_refl. cbn [bind].
  unfold tensor_min, tensor_max. rewrite rows_of_concat by exact Hlen.
  destruct values as [|v vs]; [cbn [length] in Hlen; nia|].
  cbn [bind]. eexists. reflexivity.
Qed.

Lemma plot_sdf_ok (net : points -> outcome scalars) (res lines : nat)
    (values : scalars) :
  (1 <= res)%nat ->
  net (fst (fst (create_grid res))) = Ok values ->
  length values = (res * res)%nat ->
  exists call, plot_sdf net res lines = Ok call.
Proof.
  intros Hres Hnet Hlen. unfold plot_sdf.
  destruct (create_grid res) as [[grid x] y]. cbn [fst] in Hnet.
  rewrite Hnet. cbn [bind]. now apply contour_of_ok.
Qed.

Lemma plot_sdf_field_witness :
  exists call values,
    plot_sdf (get_sphere_sdf 1) 3 15 = Ok call /\
    get_sphere_sdf 1 (fst (fst (create_grid 3))) = Ok values /\
    concat (c_z call) = values /\
    length (c_z call) = 3%nat /\
    Forall (fun row => length row = 3%nat) (c_z call).
Proof.
  destruct (plot_sdf_ok (get_sphere_sdf 1) 3 15 _ (le_S _ _ (le_S _ _ (le_n 1)))
              (sphere_sdf_plain 1 _)) as (call & Hcall).
  - rewrite length_map. apply create_grid_length.
  - destruct (plot_sdf_field (get_sphere_sdf 1) 3 15 call Hcall)
      as (values & Hv & Hz & Hrows & Hcols).
    exists call, values. auto.
Defined.

Lemma plot_sdf_levels_cover_witness :
  exists call m,
    plot_sdf (get_sphere_sdf 1) 3 15 = Ok call /\
    c_levels call = linspace (- m) m 15 /\
    Forall (fun v => - m <= v <= m) (concat (c_z call)) /\
    Exists (fun v => Rabs v = m) (concat (c_z call)).
Proof.
  destruct (plot_sdf_ok (get_sphere_sdf 1) 3 15 _ (le_S _ _ (le_S _ _ (le_n 1)))
              (sphere_sdf_plain 1 _)) as (call & Hcall).
  - rewrite length_map. apply create_grid_length.
  - destruct (plot_sdf_levels_cover (get_sphere_sdf 1) 3 15 call Hcall)
      as (m & Hlev & Hall & Hex).
    exists call, m. auto.
Defined.

Lemma plot_sdf_failures_witness :
  (forall call, plot_sdf (get_sphere_sdf 1) 0 15 <> Ok call) /\
  plot_sdf (fun _ => Ok [0]) 2 15 = Raise RuntimeError.
Proof.
  destruct (plot_sdf_failures (get_sphere_sdf 1) 0 15) as [Hempty _].
  destruct (plot_sdf_failures (fun _ => Ok [0]) 2 15) as [_ Hcount].
  split.
  - apply Hempty. reflexivity.
  - apply (Hcount [0]).
    + reflexivity.
    + simpl. lia.
Defined.

Lemma plot_sphere_sdf_values (r : R) (res lines : nat) :
  (1 <= res)%nat ->
  exists call,
    plot_sdf (get_sphere_sdf r) res lines = Ok call /\
    Forall (fun v => - r ^ 2 <= v <= 2 - r ^ 2) (concat (c_z call)) /\
    ((2 <= res)%nat -> In (2 - r ^ 2) (concat (c_z call))).
Proof.
  intros Hres.
  destruct (plot_sdf_ok (get_sphere_sdf r) res lines _ Hres (sphere_sdf_plain r _))
    as (call & Hcall).
  { rewrite length_map. apply create_grid_length. }
  exists call. split; [exact Hcall|].
  assert (Hz : concat (c_z call)
               = map (fun p => sumsq p - r ^ 2) (fst (fst (create_grid res)))).
  { unfold plot_sdf in Hcall.
    destruct (create_grid res) as [[grid x] y]. cbn [fst].
    rewrite sphere_sdf_plain in Hcall. cbn [bind] in Hcall.
    apply contour_of_spec in Hcall. destruct Hcall as (Hlen & _ & _ & -> & _).
    now apply rows_of_concat. }
  rewrite Hz. split.
  - apply Forall_map. pose proof (create_grid_bounds res) as Hsq.
    revert Hsq. apply Forall_impl. intros p (a & b & -> & Ha & Hb).
    unfold sumsq. cbn [map sum fold_right]. nra.
  - intros Hres2. apply in_map_iff. exists [1; 1]. split.
    + unfold sumsq. cbn [map sum fold_right]. ring.
    + now apply create_grid_corner.
Qed.

(** Plotting the sphere SDF: for [res >= 1] the plot is reached, every value
    plotted lies between [- r^2] and [2 - r^2], and for [res >= 2] the value
    [2 - r^2], taken at the corners of the square, is among them. *)
Theorem plot_sphere_sdf (r : R) (res lines : nat) :
  (1 <= res)%nat ->
  exists call,
    plot_sdf (get_sphere_sdf r) res lines = Ok call /\
    Forall (fun v => - r ^ 2 <= v <= 2 - r ^ 2) (concat (c_z call)) /\
    ((2 <= res)%nat -> In (2 - r ^ 2) (concat (c_z call))).
Proof. apply plot_sphere_sdf_values. Qed.

Lemma plot_sphere_sdf_witness :
  exists call,
    plot_sdf (get_sphere_sdf 1) 3 15 = Ok call /\
    Forall (fun v => - 1 ^ 2 <= v <= 2 - 1 ^ 2) (concat (c_z call)) /\
    In (2 - 1 ^ 2) (concat (c_z call)).
Proof.
  destruct (plot_sphere_sdf 1 3 15) as (call & Hcall & Hall & Hin); [lia|].
  exists call. split; [exact Hcall|]. split; [exact Hall|]. apply Hin. lia.
Defined.

(** ** Increasing levels *)

Lemma linspace_nth (a b : R) (n i : nat) :
  (2 <= n)%nat -> (i < n)%nat ->
  nth i (linspace a b n) 0 = a + INR i * ((b - a) / (INR n - 1)).
Proof.
  intros Hn Hi. unfold linspace. destruct n as [|[|n]]; try lia.
  set (f := fun i => a + INR i * ((b - a) / (INR (S (S n)) - 1))).
  rewrite (nth_indep _ 0 (f 0%nat)) by (rewrite length_map, length_seq; exact Hi).
  rewrite map_nth, seq_nth by exact Hi. reflexivity.
Qed.

Lemma linspace_increasing (a b : R) (n i j : nat) :
  a < b -> (i < j < n)%nat ->
  nth i (linspace a b n) 0 < nth j (linspace a b n) 0.
Proof.
  intros Hab Hij.
  assert (Hn : (2 <= n)%nat) by lia.
  rewrite !linspace_nth by lia.
  pose proof (linspace_step_pos n Hn) as Hs.
  assert (Hstep : 0 < (b - a) / (INR n - 1)) by (apply Rdiv_lt_0_compat; lra).
  assert (Hlt : INR i < INR j) by (apply lt_INR; lia).
  nra.
Qed.

(** When the field is not zero at every grid point, the levels that
    [plot_sdf] hands to [contourf] are strictly increasing; when it is zero
    everywhere they are all [0]. *)
Theorem plot_sdf_levels_increasing (net : points -> outcome scalars)
    (res lines : nat) (call : contour_call) :
  plot_sdf net res lines = Ok call ->
  (Exists (fun v => v <> 0) (concat (c_z call)) ->
   forall i j, (i < j < lines)%nat ->
               nth i (c_levels call) 0 < nth j (c_levels call) 0) /\
  (Forall (fun v => v = 0) (concat (c_z call)) ->
   Forall (fun l => l = 0) (c_levels call)).
Proof.
  unfold plot_sdf.
  destruct (create_grid res) as [[grid x] y].
  destruct (net grid) as [values | e |]; cbn [bind]; try discriminate.
  intros Hc. apply contour_of_spec in Hc.
  destruct Hc as (Hlen & _ & _ & Hz & m & Hlev & Hall & Hex).
  rewrite Hz, rows_of_concat, Hlev by exact Hlen. split.
  - intros Hnz i j Hij. apply linspace_increasing; [|exact Hij].
    apply Exists_exists in Hnz. destruct Hnz as (v & Hv & Hv0).
    rewrite Forall_forall in Hall. specialize (Hall v Hv). lra.
  - intros Hzero. apply Exists_exists in Hex. destruct Hex as (v & Hv & Hm).
    rewrite Forall_forall in Hzero. rewrite (Hzero v Hv), Rabs_R0 in Hm. subst m.
    apply Forall_forall. intros l Hl.
    replace (- 0) with 0 in Hl by ring.
    assert (H00 : 0 <= 0) by lra.
    pose proof (linspace_bounds 0 0 lines H00) as Hb.
    rewrite Forall_forall in Hb. specialize (Hb l Hl). lra.
Qed.

Lemma plot_sdf_levels_increasing_witness :
  exists call,
    plot_sdf (get_sphere_sdf 1) 3 15 = Ok call /\
    nth 0 (c_levels call) 0 < nth 14 (c_levels call) 0.
Proof.
  destruct (plot_sphere_sdf_values 1 3 15) as (call & Hcall & _ & Hin); [lia|].
  exists call. split; [exact Hcall|].
  destruct (plot_sdf_levels_increasing (get_sphere_sdf 1) 3 15 call Hcall)
    as [Hinc _].
  apply Hinc; [|lia].
  apply Exists_exists. exists (2 - 1 ^ 2). split; [apply Hin; lia | lra].
Defined.

(** * The normal field of the sphere SDF on a batch *)




